(** * Strands layout creator: the placement engine of [src/App.js]

    A shallow embedding of the React component's state and event handlers,
    followed by the properties of the placement engine.

    Conventions of the model.
    - One handler runs to completion per event; a handler is a function from
      the state it closes over to the state of the next render.  Functional
      updates ([setX (prev => ...)]) and plain updates coincide in that
      setting.
    - JS strings are [string]; the text typed by the author is taken to be
      ASCII, which is where [toUpperCase] and [trim] below agree with the JS
      built-ins.  The byte-order mark is the only non-ASCII text and is kept
      as a named constant.
    - JS numbers that can hold the sentinel [-1] are [Z]; array indices are
      [nat].
    - A grid slot is [option Placement]; [None] is the falsy slot ([null]).
    - The Tone.js call on completion touches no React state and is left out. *)

From Stdlib Require Import ZArith Ascii String DecimalString.
From Stdlib Require DecimalFacts DecimalNat DecimalPos.
From stdpp Require Import base list strings.

Local Open Scope string_scope.
Local Open Scope Z_scope.

(** ** JS string built-ins (ASCII) *)

(** [s.length] *)
Definition jsLength (s : string) : Z := Z.of_nat (String.length s).

(** [s.charAt(i)]: a one-character string, or the empty string out of range. *)
Definition charAt (s : string) (i : Z) : string :=
  if i <? 0 then ""
  else match String.get (Z.to_nat i) s with
       | Some ch => String ch ""
       | None => ""
       end.

Definition upperAscii (ch : ascii) : ascii :=
  let n := nat_of_ascii ch in
  if (97 <=? n)%nat && (n <=? 122)%nat then ascii_of_nat (n - 32) else ch.

(** [s.toUpperCase()] *)
Fixpoint toUpperCase (s : string) : string :=
  match s with
  | EmptyString => EmptyString
  | String ch rest => String (upperAscii ch) (toUpperCase rest)
  end.

(** White space removed by [trim]: TAB, LF, VT, FF, CR and SPACE. *)
Definition isWhiteSpace (ch : ascii) : bool :=
  let n := nat_of_ascii ch in
  ((9 <=? n)%nat && (n <=? 13)%nat) || (n =? 32)%nat.

Fixpoint trimStart (s : string) : string :=
  match s with
  | EmptyString => EmptyString
  | String ch rest => if isWhiteSpace ch then trimStart rest else s
  end.

Fixpoint trimEnd (s : string) : string :=
  match s with
  | EmptyString => EmptyString
  | String ch rest =>
      match trimEnd rest with
      | EmptyString => if isWhiteSpace ch then EmptyString else String ch EmptyString
      | rest' => String ch rest'
      end
  end.

(** [s.trim()] *)
Definition trim (s : string) : string := trimEnd (trimStart s).

(** Template-literal conversion of an integer-valued number. *)
Definition showZ (z : Z) : string := NilZero.string_of_int (Z.to_int z).
Definition showNat (n : nat) : string := NilZero.string_of_uint (Nat.to_uint n).

(** [arr.join(sep)] on an array of strings. *)
Definition join (sep : string) (l : list string) : string := String.concat sep l.

(** Truthiness of a value that is [null] or a string. *)
Definition truthy (v : option string) : bool :=
  match v with
  | Some (String _ _) => true
  | _ => false
  end.

(** [a === b] where [a] is [null] or a string and [b] is a string. *)
Definition strictEq (a : option string) (b : string) : bool :=
  match a with
  | Some x => String.eqb x b
  | None => false
  end.

(** The text consists of white space only (or is empty). *)
Fixpoint allWhiteSpace (t : string) : bool :=
  match t with
  | EmptyString => true
  | String ch rest => isWhiteSpace ch && allWhiteSpace rest
  end.

(** ** Data *)

Definition WORD_COLORS : list string :=
  [ "#EF4444"; "#3B82F6"; "#10B981"; "#F59E0B"; "#8B5CF6"; "#EC4899";
    "#06B6D4"; "#6B7280"; "#A855F7"; "#EAB308"; "#F43F5E"; "#22C55E" ].

Abbreviation Coords := (nat * nat)%type (only parsing).

(** The object stored in an occupied grid cell. *)
Record Placement : Type := mkPlacement {
  letter : string;
  wordId : string;
  color : string;
  sequenceIndex : Z;
  row : nat;
  col : nat
}.

Abbreviation Cell := (option Placement) (only parsing).
Abbreviation Grid := (list (list (option Placement))) (only parsing).

Module Word.
Record t : Type := mk { id : string; text : string; color : string }.
End Word.

(** [selectedWordData] *)
Module Sel.
Record t : Type := mk {
  id : option string;
  text : option string;
  color : option string;
  letterIndex : Z;
  lastPlacedCoords : option Coords
}.
End Sel.

Record State : Type := mkState {
  currentWord : string;
  enteredWords : list Word.t;
  editMode : option string;
  editedWordText : string;
  selectedWordData : Sel.t;
  gridCells : Grid;
  themeText : string;
  hintText : string;
  nextColorIndex : nat
}.

(** [{ id: null, text: null, color: null, letterIndex: 0, lastPlacedCoords: null }] *)
Definition noSelection : Sel.t := Sel.mk None None None 0 None.

(** [Array(8).fill(null).map(() => Array(6).fill(null))] *)
Definition emptyGrid : Grid := replicate 8 (replicate 6 None).

Definition initialState : State :=
  mkState "" [] None "" noSelection emptyGrid "" "" 0.

(** State setters. *)
Definition setCurrentWord (v : string) (s : State) : State :=
  mkState v (enteredWords s) (editMode s) (editedWordText s)
          (selectedWordData s) (gridCells s) (themeText s) (hintText s) (nextColorIndex s).
Definition setEnteredWords (v : list Word.t) (s : State) : State :=
  mkState (currentWord s) v (editMode s) (editedWordText s)
          (selectedWordData s) (gridCells s) (themeText s) (hintText s) (nextColorIndex s).
Definition setEditMode (v : option string) (s : State) : State :=
  mkState (currentWord s) (enteredWords s) v (editedWordText s)
          (selectedWordData s) (gridCells s) (themeText s) (hintText s) (nextColorIndex s).
Definition setEditedWordText (v : string) (s : State) : State :=
  mkState (currentWord s) (enteredWords s) (editMode s) v
          (selectedWordData s) (gridCells s) (themeText s) (hintText s) (nextColorIndex s).
Definition setSelectedWordData (v : Sel.t) (s : State) : State :=
  mkState (currentWord s) (enteredWords s) (editMode s) (editedWordText s)
          v (gridCells s) (themeText s) (hintText s) (nextColorIndex s).
Definition setGridCells (v : Grid) (s : State) : State :=
  mkState (currentWord s) (enteredWords s) (editMode s) (editedWordText s)
          (selectedWordData s) v (themeText s) (hintText s) (nextColorIndex s).
Definition setThemeText (v : string) (s : State) : State :=
  mkState (currentWord s) (enteredWords s) (editMode s) (editedWordText s)
          (selectedWordData s) (gridCells s) v (hintText s) (nextColorIndex s).
Definition setHintText (v : string) (s : State) : State :=
  mkState (currentWord s) (enteredWords s) (editMode s) (editedWordText s)
          (selectedWordData s) (gridCells s) (themeText s) v (nextColorIndex s).
Definition bumpColorIndex (s : State) : State :=
  mkState (currentWord s) (enteredWords s) (editMode s) (editedWordText s)
          (selectedWordData s) (gridCells s) (themeText s) (hintText s) (S (nextColorIndex s)).

(** [{ ...prevData, letterIndex: i, lastPlacedCoords: lp }] *)
Definition withProgress (prevData : Sel.t) (i : Z) (lp : option Coords) : Sel.t :=
  Sel.mk (Sel.id prevData) (Sel.text prevData) (Sel.color prevData) i lp.

(** ** Grid access *)

(** [grid[r][c]] read as a slot; a missing column reads as a falsy value. *)
Definition cellAt (g : Grid) (r c : nat) : Cell :=
  match g !! r with
  | Some cells => default None (cells !! c)
  | None => None
  end.

(** [cells[c] = v]: in range the slot is replaced; past the end the array
    grows, and the slots skipped over read as falsy, like [null]. *)
Definition writeAt (cells : list Cell) (c : nat) (v : Cell) : list Cell :=
  if (c <? length cells)%nat then <[c := v]> cells
  else cells ++ replicate (c - length cells) None ++ [v].

(** [grid[r][c] = v] on the copy of the grid, for an existing row [r]. *)
Definition setCell (g : Grid) (r c : nat) (v : Cell) : Grid :=
  match g !! r with
  | Some cells => <[r := writeAt cells c v]> g
  | None => g
  end.

(** ** isNeighbor *)

Definition isNeighbor (coords1 coords2 : option Coords) : bool :=
  match coords1, coords2 with
  | Some (r1, c1), Some (r2, c2) =>
      let dr := Z.abs (Z.of_nat r1 - Z.of_nat r2) in
      let dc := Z.abs (Z.of_nat c1 - Z.of_nat c2) in
      (dr <=? 1) && (dc <=? 1) && (negb (dr =? 0) || negb (dc =? 0))
  | _, _ => false
  end.

(** ** The resumption scan

    The double loop of [handleSelectWord] and of the toggle-off branch of
    [handleCellClick]: the pair is ([maxSequenceIndex], [currentLastPlacedCoords]). *)

Definition scanCell (w : string) (r c : nat) (cell : Cell) (acc : Z * option Coords)
  : Z * option Coords :=
  match cell with
  | Some p =>
      if String.eqb (wordId p) w then
        if sequenceIndex p >? fst acc then (sequenceIndex p, Some (r, c)) else acc
      else acc
  | None => acc
  end.

Fixpoint scanRow (w : string) (r c : nat) (cells : list Cell) (acc : Z * option Coords)
  : Z * option Coords :=
  match cells with
  | [] => acc
  | cell :: rest => scanRow w r (S c) rest (scanCell w r c cell acc)
  end.

Fixpoint scanRows (w : string) (r : nat) (g : Grid) (acc : Z * option Coords)
  : Z * option Coords :=
  match g with
  | [] => acc
  | cells :: rest => scanRows w (S r) rest (scanRow w r 0 cells acc)
  end.

Definition scanWord (g : Grid) (w : string) : Z * option Coords :=
  scanRows w 0 g (-1, None).

(** ** Event handlers *)

Definition handleInputChange (v : string) (s : State) : State := setCurrentWord v s.

(** [newId] is the value returned by [crypto.randomUUID()]. *)
Definition handleAddWord (newId : string) (s : State) : State :=
  if negb (String.eqb (trim (currentWord s)) "") then
    let newWordColor :=
      nth (nextColorIndex s mod length WORD_COLORS)%nat WORD_COLORS "" in
    let newWord := Word.mk newId (trim (currentWord s)) newWordColor in
    setCurrentWord "" (setEnteredWords (enteredWords s ++ [newWord]) (bumpColorIndex s))
  else s.

Definition handleEditClick (wId currentText : string) (s : State) : State :=
  setSelectedWordData noSelection (setEditedWordText currentText (setEditMode (Some wId) s)).

Definition handleEditInputChange (v : string) (s : State) : State := setEditedWordText v s.

Definition clearCell (wordIdToClear : string) (cell : Cell) : Cell :=
  match cell with
  | Some p => if String.eqb (wordId p) wordIdToClear then None else cell
  | None => cell
  end.

Definition clearCellsForWord (wordIdToClear : string) (s : State) : State :=
  let s1 := setGridCells (map (map (clearCell wordIdToClear)) (gridCells s)) s in
  if strictEq (Sel.id (selectedWordData s)) wordIdToClear then
    setSelectedWordData (withProgress (selectedWordData s1) 0 None) s1
  else s1.

(** [enteredWords.find(word => word.id === wId)] *)
Definition findWord (words : list Word.t) (wId : string) : option Word.t :=
  List.find (fun w => String.eqb (Word.id w) wId) words.

Definition renameWord (wId newText : string) (w : Word.t) : Word.t :=
  if String.eqb (Word.id w) wId then Word.mk (Word.id w) newText (Word.color w) else w.

Definition handleSaveEdit (wId : string) (s : State) : State :=
  let originalWord := findWord (enteredWords s) wId in
  if negb (String.eqb (trim (editedWordText s)) "") then
    let s1 :=
      match originalWord with
      | Some ow =>
          if negb (String.eqb (Word.text ow) (trim (editedWordText s)))
          then clearCellsForWord wId s else s
      | None => s
      end in
    let updatedWords := map (renameWord wId (trim (editedWordText s))) (enteredWords s) in
    setEditedWordText "" (setEditMode None (setEnteredWords updatedWords s1))
  else
    setEditedWordText "" (setEditMode None s).

Definition handleCancelEdit (s : State) : State :=
  setEditedWordText "" (setEditMode None s).

Definition handleClearWordCellsButton (wId : string) (s : State) : State :=
  clearCellsForWord wId s.

Definition handleSelectWord (wId wordText wordColor : string) (s : State) : State :=
  let s1 :=
    if strictEq (Sel.id (selectedWordData s)) wId then
      setSelectedWordData noSelection s
    else
      let '(maxSequenceIndex, currentLastPlacedCoords) := scanWord (gridCells s) wId in
      let newLetterIndex := if maxSequenceIndex =? -1 then 0 else maxSequenceIndex + 1 in
      setSelectedWordData
        (Sel.mk (Some wId) (Some (trim wordText)) (Some wordColor)
                newLetterIndex currentLastPlacedCoords) s in
  setEditMode None s1.

(** [handleCellClick]; [None] is the [TypeError] raised when [rowIndex] is
    not a row of the grid. *)
Definition handleCellClick (rowIndex colIndex : nat) (s : State) : option State :=
  match gridCells s !! rowIndex with
  | None => None
  | Some cells =>
      let currentCellContent := default None (cells !! colIndex) in
      let sel := selectedWordData s in
      match Sel.id sel, Sel.text sel, Sel.color sel with
      | Some selectedWordId, Some selectedWordText, Some selectedColor =>
          if truthy (Sel.id sel) && truthy (Sel.text sel) && truthy (Sel.color sel) then
            let currentLetterIndex := Sel.letterIndex sel in
            let lastPlacedCoords := Sel.lastPlacedCoords sel in
            if currentLetterIndex >=? jsLength selectedWordText then
              Some (setSelectedWordData noSelection s)
            else
              let letterToPlace := toUpperCase (charAt selectedWordText currentLetterIndex) in
              match currentCellContent with
              | Some occupant =>
                  if String.eqb (wordId occupant) selectedWordId then
                    let newGridCells := setCell (gridCells s) rowIndex colIndex None in
                    let '(highestSequenceIndex, newLastCoords) :=
                      scanWord newGridCells selectedWordId in
                    let s1 := setGridCells newGridCells s in
                    Some (setSelectedWordData
                            (withProgress (selectedWordData s1)
                               (Z.max 0 (highestSequenceIndex + 1)) newLastCoords) s1)
                  else Some s
              | None =>
                  let isFirstLetter := currentLetterIndex =? 0 in
                  let isValidPlacement :=
                    isFirstLetter || isNeighbor lastPlacedCoords (Some (rowIndex, colIndex)) in
                  if isValidPlacement then
                    let newGridCells :=
                      setCell (gridCells s) rowIndex colIndex
                        (Some (mkPlacement letterToPlace selectedWordId selectedColor
                                 currentLetterIndex rowIndex colIndex)) in
                    let s1 := setGridCells newGridCells s in
                    let nextLetterIndex := currentLetterIndex + 1 in
                    let newLastPlacedCoords := Some (rowIndex, colIndex) in
                    if nextLetterIndex >=? jsLength selectedWordText then
                      Some (setSelectedWordData noSelection s1)
                    else
                      Some (setSelectedWordData
                              (withProgress (selectedWordData s1)
                                 nextLetterIndex newLastPlacedCoords) s1)
                  else Some s
              end
          else Some s
      | _, _, _ => Some s
      end
  end.

(** ** handleExport *)

(** UTF-8 encoding of U+FEFF. *)
Definition BOM : string :=
  String (ascii_of_nat 239) (String (ascii_of_nat 187) (String (ascii_of_nat 191) "")).

Definition LF : string := String (ascii_of_nat 10) "".

(** [enteredWords.indexOf(wordObj)] for the object found by [find]: the
    first position holding a word with that id, or [-1]. *)
Fixpoint wordIndexFrom (words : list Word.t) (wId : string) (i : Z) : Z :=
  match words with
  | [] => -1
  | w :: rest => if String.eqb (Word.id w) wId then i else wordIndexFrom rest wId (i + 1)
  end.

Definition wordIndexOf (words : list Word.t) (wId : string) : Z :=
  wordIndexFrom words wId 0.

Definition cellRecord (words : list Word.t) (p : Placement) : string :=
  showZ (wordIndexOf words (wordId p)) ++ ";" ++ showZ (sequenceIndex p) ++ ";"
  ++ showNat (row p) ++ ";" ++ showNat (col p).

(** [gridCells.flat().filter(cellContent => cellContent !== null)] *)
Definition markedCells (g : Grid) : list Placement :=
  omap (fun cell : Cell => cell) (concat g).

Definition gridDataLine (s : State) : string :=
  join "," (map (cellRecord (enteredWords s)) (markedCells (gridCells s))).

Definition wordsLine (s : State) : string :=
  join "," (map Word.text (enteredWords s)).

Definition fileContent (s : State) : string :=
  BOM ++ themeText s ++ LF ++ hintText s ++ LF ++ wordsLine s ++ LF ++ gridDataLine s.

(** ** Events and runs

    One constructor per handler the rendered component can dispatch.  A cell
    click is dispatched only by a rendered cell; the word-list handlers are
    taken with arbitrary arguments, which covers the buttons of the words on
    display. *)

Inductive Event : Type :=
| InputChange (v : string)
| AddWord (newId : string)
| EditClick (wId currentText : string)
| EditInputChange (v : string)
| SaveEdit (wId : string)
| CancelEdit
| ClearWordCells (wId : string)
| SelectWord (wId wordText wordColor : string)
| CellClick (rowIndex colIndex : nat)
| ThemeChange (v : string)
| HintChange (v : string)
| Export.

(** [(r, c)] is a cell drawn by [gridCells.map((row, r) => row.map((_, c) => ...))]. *)
Definition rendered (g : Grid) (r c : nat) : bool :=
  match g !! r with
  | Some cells => (c <? length cells)%nat
  | None => false
  end.

Definition dispatchable (s : State) (e : Event) : bool :=
  match e with
  | CellClick r c => rendered (gridCells s) r c
  | _ => true
  end.

Definition step (e : Event) (s : State) : option State :=
  match e with
  | InputChange v => Some (handleInputChange v s)
  | AddWord newId => Some (handleAddWord newId s)
  | EditClick wId t => Some (handleEditClick wId t s)
  | EditInputChange v => Some (handleEditInputChange v s)
  | SaveEdit wId => Some (handleSaveEdit wId s)
  | CancelEdit => Some (handleCancelEdit s)
  | ClearWordCells wId => Some (handleClearWordCellsButton wId s)
  | SelectWord wId t c => Some (handleSelectWord wId t c s)
  | CellClick r c => handleCellClick r c s
  | ThemeChange v => Some (setThemeText v s)
  | HintChange v => Some (setHintText v s)
  | Export => Some s
  end.

Fixpoint run (evs : list Event) (s : State) : option State :=
  match evs with
  | [] => Some s
  | e :: rest =>
      if dispatchable s e then
        match step e s with
        | Some s' => run rest s'
        | None => None
        end
      else None
  end.

Definition reachable (s : State) : Prop :=
  exists evs, run evs initialState = Some s.

(** ** Predicates of the specification *)

(** The selection is one the click handler acts on. *)
Definition selectionIs (s : State) (w t k : string) : Prop :=
  Sel.id (selectedWordData s) = Some w /\ Sel.text (selectedWordData s) = Some t
  /\ Sel.color (selectedWordData s) = Some k /\ w <> "" /\ t <> "" /\ k <> "".

Definition selectionActive (s : State) : bool :=
  truthy (Sel.id (selectedWordData s)) && truthy (Sel.text (selectedWordData s))
  && truthy (Sel.color (selectedWordData s)).

(** Adjacency as the specification words it. *)
Definition eightNeighbor (a b : Coords) : Prop :=
  Z.abs (Z.of_nat a.1 - Z.of_nat b.1) <= 1 /\ Z.abs (Z.of_nat a.2 - Z.of_nat b.2) <= 1
  /\ (a.1 <> b.1 \/ a.2 <> b.2).

(** The cell at [(r, c)] holds a letter of word [w]. *)
Definition ownedAt (g : Grid) (w : string) (r c : nat) (p : Placement) : Prop :=
  cellAt g r c = Some p /\ wordId p = w.

(** [m] is the highest sequence index of word [w] on grid [g] and [lp] the
    coordinates of the cell holding it; [-1] and no coordinates when the word
    has no cell on the grid. *)
Definition highestAt (g : Grid) (w : string) (m : Z) (lp : option Coords) : Prop :=
  (m = -1 /\ lp = None /\ forall r c p, ~ ownedAt g w r c p)
  \/ (exists r c p, ownedAt g w r c p /\ sequenceIndex p = m /\ lp = Some (r, c)
        /\ forall r' c' p', ownedAt g w r' c' p' -> sequenceIndex p' <= m).

(** Sequence indices on the grid are non-negative. *)
Definition gridWf (g : Grid) : Prop :=
  forall r c p, cellAt g r c = Some p -> 0 <= sequenceIndex p.

(** Executable form of [gridWf]. *)
Definition gridWfb (g : Grid) : bool :=
  forallb (forallb (fun cell : Cell =>
                      match cell with
                      | Some p => 0 <=? sequenceIndex p
                      | None => true
                      end)) g.

(** I1: a placement records the coordinates of its own slot. *)
Definition coordsOk (g : Grid) : Prop :=
  forall r c p, cellAt g r c = Some p -> row p = r /\ col p = c.

(** I2: no two occupied cells share a word and a sequence index. *)
Definition uniqueCells (g : Grid) : Prop :=
  forall r1 c1 p1 r2 c2 p2,
    cellAt g r1 c1 = Some p1 -> cellAt g r2 c2 = Some p2 ->
    wordId p1 = wordId p2 -> sequenceIndex p1 = sequenceIndex p2 ->
    r1 = r2 /\ c1 = c2.

Definition sameShape (g g' : Grid) : Prop := map length g = map length g'.

(** ** Results of the two mutating branches of the click handler *)

(** The state after the toggle-off branch: the cell is emptied and the
    progress of the selection is recomputed from the remaining grid. *)
Definition toggledOff (r c : nat) (w : string) (s : State) : State :=
  let g := setCell (gridCells s) r c None in
  setSelectedWordData
    (withProgress (selectedWordData s) (Z.max 0 ((scanWord g w).1 + 1)) (scanWord g w).2)
    (setGridCells g s).

(** The state after an accepted placement of the next letter of [t]. *)
Definition placed (r c : nat) (w t k : string) (s : State) : State :=
  let i := Sel.letterIndex (selectedWordData s) in
  let s1 :=
    setGridCells
      (setCell (gridCells s) r c
         (Some (mkPlacement (toUpperCase (charAt t i)) w k i r c))) s in
  if i + 1 >=? jsLength t then setSelectedWordData noSelection s1
  else setSelectedWordData (withProgress (selectedWordData s) (i + 1) (Some (r, c))) s1.

(** ** The invariant of reachable states *)

(** What every handler maintains about the grid and the selection: the grid
    is well formed (I1, I2, non-negative indices), the next index is
    non-negative and lies above every sequence index of the selected word on
    the grid, and a non-zero next index comes with last placed coordinates. *)
Record Inv (g : Grid) (sel : Sel.t) : Prop := mkInv {
  inv_wf : gridWf g;
  inv_coords : coordsOk g;
  inv_unique : uniqueCells g;
  inv_nonneg : 0 <= Sel.letterIndex sel;
  inv_above : forall w r c p,
      Sel.id sel = Some w -> ownedAt g w r c p -> sequenceIndex p < Sel.letterIndex sel;
  inv_last : Sel.letterIndex sel <> 0 -> is_Some (Sel.lastPlacedCoords sel)
}.

Definition invariant (s : State) : Prop := Inv (gridCells s) (selectedWordData s).

(** [g'] holds only placements that [g] holds at the same coordinates. *)
Definition subgrid (g' g : Grid) : Prop :=
  forall r c p, cellAt g' r c = Some p -> cellAt g r c = Some p.

(** ** The export file as the specification words it *)

(** The file as the specification words it, written without the helpers of
    the code side: the byte-order mark, then four lines separated by line
    feeds; the records taken cell by cell in row-major order, their numbers
    in decimal. *)
Module ExportSpec.

Definition ROWS : nat := 8.
Definition COLS : nat := 6.

(** U+000A. *)
Definition newline : string := String "010"%char EmptyString.

(** U+FEFF in UTF-8: EF BB BF. *)
Definition byteOrderMark : string :=
  String "239"%char (String "187"%char (String "191"%char EmptyString)).

(** The items with [sep] between each two of them. *)
Fixpoint joinWith (sep : string) (items : list string) : string :=
  match items with
  | [] => EmptyString
  | [x] => x
  | x :: rest => x ++ sep ++ joinWith sep rest
  end.

Definition digit (d : nat) : string :=
  match d with
  | 0 => "0" | 1 => "1" | 2 => "2" | 3 => "3" | 4 => "4"
  | 5 => "5" | 6 => "6" | 7 => "7" | 8 => "8" | _ => "9"
  end%nat.

(** Decimal digits of [n], most significant first; [fuel] bounds the number
    of digits. *)
Fixpoint decimalFuel (fuel n : nat) : string :=
  match fuel with
  | O => EmptyString
  | S fuel' =>
      if (n <? 10)%nat then digit n
      else decimalFuel fuel' (n / 10) ++ digit (n mod 10)
  end.

Definition decimalNat (n : nat) : string := decimalFuel (S n) n.

(** A minus sign in front of the digits of a negative number. *)
Definition decimalInt (z : Z) : string :=
  if z <? 0 then "-" ++ decimalNat (Z.to_nat (- z)) else decimalNat (Z.to_nat z).

(** The slot at row [r], column [c]. *)
Definition slot (g : Grid) (r c : nat) : Cell := nth c (nth r g []) None.

(** Row 0..7, and within a row column 0..5. *)
Definition scanOrder : list Coords :=
  flat_map (fun r => map (fun c => (r, c)) (seq 0 COLS)) (seq 0 ROWS).

(** 0-based position of the first word with that id, [-1] when there is none. *)
Definition registryPosition (words : list Word.t) (wId : string) : Z :=
  match list_find (fun w => Word.id w = wId) words with
  | Some (i, _) => Z.of_nat i
  | None => -1
  end.

Definition placementRecord (words : list Word.t) (p : Placement) : string :=
  joinWith ";" [ decimalInt (registryPosition words (wordId p));
                 decimalInt (sequenceIndex p);
                 decimalNat (row p); decimalNat (col p) ].

Definition recordsAt (words : list Word.t) (g : Grid) (rc : Coords) : list string :=
  match slot g rc.1 rc.2 with
  | Some p => [placementRecord words p]
  | None => []
  end.

Definition body (theme hint : string) (words : list Word.t) (g : Grid) : string :=
  joinWith newline [ theme; hint; joinWith "," (map Word.text words);
                     joinWith "," (flat_map (recordsAt words g) scanOrder) ].

Definition file (theme hint : string) (words : list Word.t) (g : Grid) : string :=
  byteOrderMark ++ body theme hint words g.

End ExportSpec.

(** The grid is a matrix of [rows] by [cols] slots. *)
Definition rectangular (rows cols : nat) (g : Grid) : Prop :=
  length g = rows /\ Forall (fun cells => length cells = cols) g.

(** ** Sample states used to exercise the theorems *)

Definition after (evs : list Event) : State :=
  default initialState (run evs initialState).

Definition twoWords : list Event :=
  [ InputChange "cat"; AddWord "w1"; InputChange "dog"; AddWord "w2" ].

Definition selectCat : Event := SelectWord "w1" "cat" "#EF4444".
Definition selectDog : Event := SelectWord "w2" "dog" "#3B82F6".

(** "cat" selected, C at (0,0) and A at (0,1). *)
Definition catTwoLetters : State :=
  after (twoWords ++ [selectCat; CellClick 0 0; CellClick 0 1]).

(** "cat" placed in part, nothing selected. *)
Definition catDeselected : State :=
  after (twoWords ++ [selectCat; CellClick 0 0; CellClick 0 1; selectCat]).

(** "cat" is complete on the grid and selected again, so its next index is
    past the end of the text; "dog" has its first letter at (2,2). *)
Definition catExhaustedEvents : list Event :=
  twoWords ++ [selectDog; CellClick 2 2; selectDog; selectCat;
               CellClick 0 0; CellClick 0 1; CellClick 1 1; selectCat].

Definition catExhausted : State := after catExhaustedEvents.

(** "dog" has its first letter at (2,2); "cat" is selected with C at (0,0). *)
Definition catOverDog : State :=
  after (twoWords ++ [selectDog; CellClick 2 2; selectCat; CellClick 0 0]).

Definition catOneLetter : State := after (twoWords ++ [selectCat; CellClick 0 0]).

Definition catComplete : State :=
  after (twoWords ++ [selectCat; CellClick 0 0; CellClick 0 1; CellClick 5 5; CellClick 1 1]).

Definition catReselected : State :=
  after (twoWords ++ [selectCat; CellClick 0 0; CellClick 0 1; CellClick 1 1; selectCat]).

(** A word is being edited: nothing is selected although "cat" was. *)
Definition editingDogEvents : list Event :=
  twoWords ++ [selectCat; CellClick 0 0; EditClick "w2" "dog"].

(** An 8 by 6 grid with three letters: one of the first word, one of the
    second, and one whose word is not in the registry. *)
Definition exportSample : State :=
  mkState "" [Word.mk "w1" "CAT" "#EF4444"; Word.mk "w2" "DOG" "#3B82F6"] None ""
    noSelection
    (setCell
       (setCell
          (setCell emptyGrid 0 0 (Some (mkPlacement "C" "w1" "#EF4444" 0 0 0)))
          3 4 (Some (mkPlacement "G" "w2" "#3B82F6" 2 3 4)))
       7 5 (Some (mkPlacement "X" "gone" "#10B981" 10 7 5)))
    "Animals" "Farm" 2.

(** The export scenario of the specification. *)
Definition farmState : State :=
  after [ ThemeChange "Animals"; HintChange "Farm";
          InputChange "CAT"; AddWord "w1"; InputChange "DOG"; AddWord "w2";
          SelectWord "w1" "CAT" "#EF4444"; CellClick 0 0 ].

(** ** The derived state of the two effects *)

(** [calculateLetters] *)
Definition calculateLetters (wordText : string) : Z := jsLength wordText.

(** The effect on [enteredWords]:
    [enteredWords.reduce((sum, word) => sum + calculateLetters(word.text), 0)]. *)
Definition totalLetterCount (words : list Word.t) : Z :=
  foldl (fun sum word => sum + calculateLetters (Word.text word)) 0 words.

(** [set.add(x)] on a JS [Set], kept as the list of its elements in insertion
    order. *)
Definition setAdd (x : string) (elems : list string) : list string :=
  if existsb (String.eqb x) elems then elems else (elems ++ [x])%list.

(** The body of the inner [forEach]: [if (cell && cell.wordId) add]. *)
Definition collectCell (currentPlacedIds : list string) (cell : Cell) : list string :=
  match cell with
  | Some p => if truthy (Some (wordId p)) then setAdd (wordId p) currentPlacedIds
              else currentPlacedIds
  | None => currentPlacedIds
  end.

(** The effect on [gridCells]: the elements of the set stored in [placedWordIds]. *)
Definition placedWordIds (g : Grid) : list string :=
  foldl (fun acc cells => foldl collectCell acc cells) [] g.

(** ** Further invariants of reachable states *)

(** The progress of the selection is the resumption point of its word. *)
Definition progressOk (s : State) : Prop :=
  forall w, Sel.id (selectedWordData s) = Some w ->
    highestAt (gridCells s) w (Sel.letterIndex (selectedWordData s) - 1)
              (Sel.lastPlacedCoords (selectedWordData s)).

(** While a word is being edited nothing is selected. *)
Definition exclusive (s : State) : Prop :=
  editMode s <> None -> selectedWordData s = noSelection.

(** Every placed letter is one character long. *)
Definition lettersOk (g : Grid) : Prop :=
  forall r c p, cellAt g r c = Some p -> String.length (letter p) = 1%nat.

(** The registry: the colour counter counts the words, the word at position
    [i] has the palette colour [i mod 12], and no word has an empty text. *)
Definition registryOk (s : State) : Prop :=
  nextColorIndex s = length (enteredWords s)
  /\ forall i w, enteredWords s !! i = Some w ->
       Word.color w = nth (i mod length WORD_COLORS)%nat WORD_COLORS ""
       /\ Word.text w <> "".

(** I3: cells of one word with consecutive sequence indices are 8-neighbours. *)
Definition chainOk (g : Grid) : Prop :=
  forall r1 c1 p1 r2 c2 p2,
    cellAt g r1 c1 = Some p1 -> cellAt g r2 c2 = Some p2 ->
    wordId p1 = wordId p2 -> sequenceIndex p2 = sequenceIndex p1 + 1 ->
    eightNeighbor (r1, c1) (r2, c2).


(** ** Grid lemmas *)

Lemma cellAt_Some g r c p :
  cellAt g r c = Some p <-> exists cells, g !! r = Some cells /\ cells !! c = Some (Some p).
Proof.
  unfold cellAt. split.
  - destruct (g !! r) as [cells|]; [|done].
    destruct (cells !! c) as [cell|] eqn:E; simpl; [|done].
    intros ->. eauto.
  - intros (cells & -> & ->). done.
Qed.

Lemma writeAt_same cells c v : default None (writeAt cells c v !! c) = v.
Proof.
  unfold writeAt. destruct (Nat.ltb_spec c (length cells)) as [Hlt|Hge].
  - by rewrite list_lookup_insert_eq.
  - rewrite lookup_app_r; [|lia].
    rewrite lookup_app_r; rewrite length_replicate; [|lia].
    by replace (c - length cells - (c - length cells))%nat with 0%nat by lia.
Qed.

Lemma writeAt_other cells c c' v :
  c <> c' -> default None (writeAt cells c v !! c') = default None (cells !! c').
Proof.
  intros Hne. unfold writeAt. destruct (Nat.ltb_spec c (length cells)) as [Hlt|Hge].
  - by rewrite list_lookup_insert_ne.
  - destruct (decide (c' < length cells)%nat) as [Hin|Hout].
    + by rewrite lookup_app_l.
    + rewrite (lookup_ge_None_2 cells c'); [|lia].
      rewrite lookup_app_r; [|lia].
      destruct (decide (c' - length cells < c - length cells)%nat) as [Hpad|Hpast].
      * rewrite lookup_app_l; [|by rewrite length_replicate].
        by rewrite lookup_replicate_2.
      * rewrite lookup_app_r; rewrite length_replicate; [|lia].
        rewrite lookup_ge_None_2; [done|simpl; lia].
Qed.

Lemma writeAt_length cells c v :
  (c < length cells)%nat -> length (writeAt cells c v) = length cells.
Proof.
  intros Hlt. unfold writeAt.
  destruct (Nat.ltb_spec c (length cells)); [|lia]. by rewrite length_insert.
Qed.

Lemma cellAt_setCell_same g r c v :
  is_Some (g !! r) -> cellAt (setCell g r c v) r c = v.
Proof.
  intros [cells Hr]. unfold setCell, cellAt. rewrite Hr.
  rewrite list_lookup_insert_eq; [|by eapply lookup_lt_Some].
  apply writeAt_same.
Qed.

Lemma cellAt_setCell_other g r c v r' c' :
  (r', c') <> (r, c) -> cellAt (setCell g r c v) r' c' = cellAt g r' c'.
Proof.
  intros Hne. unfold setCell. destruct (g !! r) as [cells|] eqn:Hr; [|done].
  unfold cellAt. destruct (decide (r' = r)) as [->|Hr'].
  - rewrite list_lookup_insert_eq; [|by eapply lookup_lt_Some]. rewrite Hr.
    apply writeAt_other. congruence.
  - by rewrite list_lookup_insert_ne.
Qed.

Lemma sameShape_setCell g r c v :
  rendered g r c = true -> sameShape g (setCell g r c v).
Proof.
  unfold rendered, setCell, sameShape. destruct (g !! r) as [cells|] eqn:Hr; [|done].
  intros Hc%Nat.ltb_lt. rewrite list_fmap_insert, writeAt_length by done.
  symmetry. apply list_insert_id. by rewrite list_lookup_fmap, Hr.
Qed.

Lemma cellAt_clear w g r c :
  cellAt (map (map (clearCell w)) g) r c = clearCell w (cellAt g r c).
Proof.
  unfold cellAt. rewrite list_lookup_fmap.
  destruct (g !! r) as [cells|]; simpl; [|done].
  rewrite list_lookup_fmap. by destruct (cells !! c).
Qed.

Lemma sameShape_clear w g : sameShape g (map (map (clearCell w)) g).
Proof.
  unfold sameShape. induction g as [|cells g IH]; simpl; [done|].
  by rewrite length_map, <- IH.
Qed.

Lemma cellAt_emptyGrid r c : cellAt emptyGrid r c = None.
Proof.
  unfold cellAt, emptyGrid.
  destruct (replicate 8 (replicate 6 None) !! r) as [cells|] eqn:Hr; [|done].
  apply lookup_replicate in Hr as [-> _].
  destruct (replicate 6 (@None Placement) !! c) as [cell|] eqn:Hc; [|done].
  by apply lookup_replicate in Hc as [-> _].
Qed.

(** ** The scan finds the highest sequence index of the word *)

Lemma scanCell_spec w r c cell acc :
  let res := scanCell w r c cell acc in
  (forall p, cell = Some p -> wordId p = w -> sequenceIndex p <= res.1)
  /\ (res = acc
      \/ (acc.1 < res.1 /\ exists p, res.2 = Some (r, c) /\ cell = Some p
            /\ wordId p = w /\ sequenceIndex p = res.1)).
Proof.
  unfold scanCell. destruct cell as [p|]; simpl; [|split; [done|by left]].
  destruct (String.eqb_spec (wordId p) w) as [Hw|Hw].
  - destruct (Z.gtb_spec (sequenceIndex p) acc.1) as [Hgt|Hle]; simpl.
    + split; [intros ? [= <-] _; lia|]. right. split; [lia|]. by exists p.
    + split; [intros ? [= <-] _; lia|]. by left.
  - split; [intros ? [= <-] ?; done|]. by left.
Qed.

Lemma scanRow_spec w r cells : forall c acc,
  let res := scanRow w r c cells acc in
  (forall j p, cells !! j = Some (Some p) -> wordId p = w -> sequenceIndex p <= res.1)
  /\ (res = acc
      \/ (acc.1 < res.1 /\ exists j p, res.2 = Some (r, (c + j)%nat)
            /\ cells !! j = Some (Some p) /\ wordId p = w /\ sequenceIndex p = res.1)).
Proof.
  induction cells as [|cell rest IH]; intros c acc; simpl.
  - split; [intros j p Hj; by rewrite lookup_nil in Hj|by left].
  - destruct (scanCell_spec w r c cell acc) as [Hub Hres].
    destruct (IH (S c) (scanCell w r c cell acc)) as [IHub IHres].
    assert (Hmono : (scanCell w r c cell acc).1 <= (scanRow w r (S c) rest (scanCell w r c cell acc)).1).
    { destruct IHres as [->|[? _]]; lia. }
    split.
    + intros [|j] p Hj Hw; simpl in Hj.
      * injection Hj as ->. specialize (Hub p eq_refl Hw). lia.
      * by apply (IHub j p).
    + destruct IHres as [->|(Hlt & j & p & Hco & Hj & Hw & Hs)].
      * destruct Hres as [->|(Hlt & p & Hco & -> & Hw & Hs)]; [by left|].
        right. split; [done|]. exists 0%nat, p. by rewrite Nat.add_0_r.
      * right. split.
        { destruct Hres as [Heq|[? _]]; [apply (f_equal fst) in Heq|]; lia. }
        exists (S j), p. by rewrite Nat.add_succ_r.
Qed.

Lemma scanRows_spec w g : forall r acc,
  let res := scanRows w r g acc in
  (forall i j cells p, g !! i = Some cells -> cells !! j = Some (Some p) ->
      wordId p = w -> sequenceIndex p <= res.1)
  /\ (res = acc
      \/ (acc.1 < res.1 /\ exists i j cells p, res.2 = Some ((r + i)%nat, j)
            /\ g !! i = Some cells /\ cells !! j = Some (Some p)
            /\ wordId p = w /\ sequenceIndex p = res.1)).
Proof.
  induction g as [|cells rest IH]; intros r acc; simpl.
  - split; [intros i j cells p Hi; by rewrite lookup_nil in Hi|by left].
  - destruct (scanRow_spec w r cells 0 acc) as [Hub Hres].
    destruct (IH (S r) (scanRow w r 0 cells acc)) as [IHub IHres].
    assert (Hmono : (scanRow w r 0 cells acc).1
                    <= (scanRows w (S r) rest (scanRow w r 0 cells acc)).1).
    { destruct IHres as [->|[? _]]; lia. }
    split.
    + intros [|i] j cells' p Hi Hj Hw; simpl in Hi.
      * injection Hi as <-. specialize (Hub j p Hj Hw). lia.
      * by apply (IHub i j cells' p).
    + destruct IHres as [->|(Hlt & i & j & cells' & p & Hco & Hi & Hj & Hw & Hs)].
      * destruct Hres as [->|(Hlt & j & p & Hco & Hj & Hw & Hs)]; [by left|].
        right. split; [done|]. exists 0%nat, j, cells, p. by rewrite Nat.add_0_r.
      * right. split.
        { destruct Hres as [Heq|[? _]]; [apply (f_equal fst) in Heq|]; lia. }
        exists (S i), j, cells', p. by rewrite Nat.add_succ_r.
Qed.

Lemma scanWord_spec g w m lp :
  scanWord g w = (m, lp) ->
  (forall r c p, ownedAt g w r c p -> sequenceIndex p <= m)
  /\ ((m = -1 /\ lp = None)
      \/ (-1 < m /\ exists r c p, lp = Some (r, c) /\ ownedAt g w r c p
            /\ sequenceIndex p = m)).
Proof.
  unfold scanWord. intros Hscan.
  destruct (scanRows_spec w g 0 (-1, None)) as [Hub Hres]. rewrite Hscan in *. simpl in *.
  split.
  - intros r c p [Hc Hw]. apply cellAt_Some in Hc as (cells & Hr & Hc). eauto.
  - destruct Hres as [[= -> ->]|(Hlt & i & j & cells & p & -> & Hi & Hj & Hw & Hs)].
    + by left.
    + right. split; [done|]. exists i, j, p. repeat split; try done.
      apply cellAt_Some. eauto.
Qed.

(** On a well-formed grid the scan computes the highest index and its cell. *)
Lemma scanWord_highest g w :
  gridWf g -> highestAt g w (scanWord g w).1 (scanWord g w).2.
Proof.
  intros Hwf. destruct (scanWord g w) as [m lp] eqn:Hscan. simpl.
  apply scanWord_spec in Hscan as [Hub Hres].
  destruct Hres as [[-> ->]|(Hlt & r & c & p & -> & Hown & Hs)].
  - left. repeat split; try done. intros r c p Hown.
    pose proof (Hub r c p Hown). destruct Hown as [Hc _]. apply Hwf in Hc. lia.
  - right. exists r, c, p. repeat split; try done; apply Hown.
Qed.

Lemma highestAt_bound g w m lp : gridWf g -> highestAt g w m lp -> -1 <= m.
Proof.
  intros Hwf [(-> & _)|(r & c & p & [Hc _] & <- & _)]; [lia|].
  apply Hwf in Hc. lia.
Qed.

Lemma strictEq_true a b : strictEq a b = true <-> a = Some b.
Proof.
  unfold strictEq. destruct a as [x|]; [|done].
  rewrite String.eqb_eq. split; congruence.
Qed.

Lemma strictEq_false a b : a <> Some b -> strictEq a b = false.
Proof.
  intros Hne. destruct (strictEq a b) eqn:E; [|done]. by apply strictEq_true in E.
Qed.

(** ** Unfolding the click handler *)

Lemma selectionIs_active s w t k : selectionIs s w t k -> selectionActive s = true.
Proof.
  intros (Hi & Ht & Hk & Hw & Ht' & Hk'). unfold selectionActive.
  rewrite Hi, Ht, Hk. by destruct w, t, k.
Qed.

Lemma selectionActive_is s :
  selectionActive s = true -> exists w t k, selectionIs s w t k.
Proof.
  unfold selectionActive, selectionIs.
  destruct (Sel.id (selectedWordData s)) as [[|a w]|]; simpl; try done.
  destruct (Sel.text (selectedWordData s)) as [[|b t]|]; simpl; try done.
  destruct (Sel.color (selectedWordData s)) as [[|d k]|]; simpl; try done.
  intros _. by exists (String a w), (String b t), (String d k).
Qed.

Lemma click_row_missing r c s :
  gridCells s !! r = None -> handleCellClick r c s = None.
Proof. intros Hr. unfold handleCellClick. by rewrite Hr. Qed.

Lemma click_inactive r c s :
  is_Some (gridCells s !! r) -> selectionActive s = false ->
  handleCellClick r c s = Some s.
Proof.
  intros [cells Hr]. unfold selectionActive, handleCellClick. rewrite Hr.
  destruct (Sel.id (selectedWordData s)) as [w|]; [|done].
  destruct (Sel.text (selectedWordData s)) as [t|]; [|done].
  destruct (Sel.color (selectedWordData s)) as [k|]; [|done].
  by intros ->.
Qed.

Lemma click_active r c s w t k :
  is_Some (gridCells s !! r) -> selectionIs s w t k ->
  handleCellClick r c s =
    if Sel.letterIndex (selectedWordData s) >=? jsLength t
    then Some (setSelectedWordData noSelection s)
    else match cellAt (gridCells s) r c with
         | Some occupant =>
             if String.eqb (wordId occupant) w then Some (toggledOff r c w s) else Some s
         | None =>
             if (Sel.letterIndex (selectedWordData s) =? 0)
                || isNeighbor (Sel.lastPlacedCoords (selectedWordData s)) (Some (r, c))
             then Some (placed r c w t k s) else Some s
         end.
Proof.
  intros [cells Hr] Hsel. pose proof (selectionIs_active _ _ _ _ Hsel) as Hact.
  destruct Hsel as (Hi & Ht & Hk & _). unfold selectionActive in Hact.
  unfold handleCellClick, cellAt, toggledOff, placed. rewrite Hr, Hi, Ht, Hk.
  rewrite Hi, Ht, Hk in Hact. rewrite Hact.
  destruct (Sel.letterIndex (selectedWordData s) >=? jsLength t); [done|].
  destruct (default None (cells !! c)) as [occupant|].
  - destruct (String.eqb (wordId occupant) w); [|done].
    by destruct (scanWord (setCell (gridCells s) r c None) w).
  - destruct ((Sel.letterIndex (selectedWordData s) =? 0)
              || isNeighbor (Sel.lastPlacedCoords (selectedWordData s)) (Some (r, c))); [|done].
    simpl. by destruct (Sel.letterIndex (selectedWordData s) + 1 >=? jsLength t).
Qed.

Lemma isNeighbor_spec lp r c :
  isNeighbor lp (Some (r, c)) = true <-> exists a, lp = Some a /\ eightNeighbor a (r, c).
Proof.
  unfold isNeighbor, eightNeighbor. destruct lp as [[r1 c1]|]; simpl.
  - rewrite !andb_true_iff, orb_true_iff, !negb_true_iff, !Z.leb_le, !Z.eqb_neq.
    split.
    + intros [[Hr Hc] Hd]. exists (r1, c1). simpl. split; [done|]. lia.
    + intros ([a b] & [= <- <-] & Hr & Hc & Hd). simpl in *. lia.
  - split; [done|]. by intros (a & [=] & _).
Qed.

Lemma rendered_row g r c : rendered g r c = true -> is_Some (g !! r).
Proof. unfold rendered. destruct (g !! r); [eauto|done]. Qed.

Lemma cellAt_rendered g r c p : cellAt g r c = Some p -> rendered g r c = true.
Proof.
  intros (cells & Hr & Hc)%cellAt_Some. unfold rendered. rewrite Hr.
  apply Nat.ltb_lt. by eapply lookup_lt_Some.
Qed.

Lemma gridWfb_sound g : gridWfb g = true -> gridWf g.
Proof.
  intros Hb r c p (cells & Hr & Hc)%cellAt_Some.
  unfold gridWfb in Hb. rewrite forallb_forall in Hb.
  apply list_elem_of_lookup_2, list_elem_of_In, Hb in Hr.
  rewrite forallb_forall in Hr.
  apply list_elem_of_lookup_2, list_elem_of_In, Hr in Hc. simpl in Hc. lia.
Qed.

(** ** The scenarios of the specification, run on the model *)

(** Scenario A: C at (0,0), A at (0,1), a rejected click at (5,5), T at (1,1). *)
Example scenario_A_first_letter :
  cellAt (gridCells catOneLetter) 0 0 = Some (mkPlacement "C" "w1" "#EF4444" 0 0 0)
  /\ Sel.letterIndex (selectedWordData catOneLetter) = 1.
Proof. split; vm_compute; reflexivity. Qed.

Example scenario_A_second_letter :
  cellAt (gridCells catTwoLetters) 0 1 = Some (mkPlacement "A" "w1" "#EF4444" 1 0 1)
  /\ Sel.letterIndex (selectedWordData catTwoLetters) = 2.
Proof. split; vm_compute; reflexivity. Qed.

Example scenario_A_rejected :
  handleCellClick 5 5 catTwoLetters = Some catTwoLetters.
Proof. vm_compute. reflexivity. Qed.

Example scenario_A_complete :
  cellAt (gridCells catComplete) 1 1 = Some (mkPlacement "T" "w1" "#EF4444" 2 1 1)
  /\ selectedWordData catComplete = noSelection.
Proof. split; vm_compute; reflexivity. Qed.

(** Scenario B: the complete word selected again is exhausted; the next
    click deselects and writes nothing. *)
Example scenario_B :
  Sel.letterIndex (selectedWordData catReselected) = 3
  /\ Sel.lastPlacedCoords (selectedWordData catReselected) = Some (1, 1)%nat
  /\ handleCellClick 4 4 catReselected
     = Some (setSelectedWordData noSelection catReselected).
Proof. repeat split; vm_compute; reflexivity. Qed.

(** Scenario C: removing the first letter resumes after the second. *)
Example scenario_C :
  option_map (fun s' => (cellAt (gridCells s') 0 0, selectedWordData s'))
             (handleCellClick 0 0 catTwoLetters)
  = Some (None, Sel.mk (Some "w1") (Some "cat") (Some "#EF4444") 2 (Some (0, 1)%nat)).
Proof. vm_compute. reflexivity. Qed.

(** ** The click rule *)

(** C1. A click on an empty rendered cell, with a selection that still has
    letters to place, writes the cell exactly when the next letter is the
    first one or the cell is an 8-neighbour of the last placed coordinates.
    The written placement carries the upper-cased next letter, the selected
    word, the next index and the clicked coordinates; a rejected click leaves
    the whole state as it was. *)
Theorem click_empty_cell r c s w t k :
  rendered (gridCells s) r c = true ->
  cellAt (gridCells s) r c = None ->
  selectionIs s w t k ->
  Sel.letterIndex (selectedWordData s) < jsLength t ->
  let i := Sel.letterIndex (selectedWordData s) in
  let accepted :=
    i = 0 \/ exists a, Sel.lastPlacedCoords (selectedWordData s) = Some a
                       /\ eightNeighbor a (r, c) in
  exists s', handleCellClick r c s = Some s'
    /\ (is_Some (cellAt (gridCells s') r c) <-> accepted)
    /\ (accepted ->
        cellAt (gridCells s') r c
        = Some (mkPlacement (toUpperCase (charAt t i)) w k i r c))
    /\ (~ accepted -> s' = s).
Proof.
  intros Hrend Hempty Hsel Hlt i accepted.
  pose proof (rendered_row _ _ _ Hrend) as Hrow.
  rewrite (click_active r c s w t k Hrow Hsel), Hempty.
  destruct (Z.geb_spec (Sel.letterIndex (selectedWordData s)) (jsLength t)); [lia|].
  assert (Hdec : (i =? 0) || isNeighbor (Sel.lastPlacedCoords (selectedWordData s))
                               (Some (r, c)) = true <-> accepted).
  { rewrite orb_true_iff, Z.eqb_eq, isNeighbor_spec. done. }
  fold i. destruct ((i =? 0) || isNeighbor _ _) eqn:Hvalid.
  - assert (Hacc : accepted) by by apply Hdec.
    assert (Hcell : cellAt (gridCells (placed r c w t k s)) r c
                    = Some (mkPlacement (toUpperCase (charAt t i)) w k i r c)).
    { unfold placed. fold i. destruct (i + 1 >=? jsLength t); simpl;
        by apply cellAt_setCell_same. }
    eexists. split; [done|]. rewrite Hcell. repeat split; eauto. done.
  - assert (Hrej : ~ accepted) by (intros Hacc%Hdec; done).
    exists s. split; [done|]. rewrite Hempty. repeat split; try done.
Qed.

Lemma click_empty_cell_witness :
  exists s', handleCellClick 1 1 catTwoLetters = Some s'
    /\ cellAt (gridCells s') 1 1 = Some (mkPlacement "T" "w1" "#EF4444" 2 1 1).
Proof.
  destruct (click_empty_cell 1 1 catTwoLetters "w1" "cat" "#EF4444")
    as (s' & Hclick & _ & Hacc & _).
  - reflexivity.
  - reflexivity.
  - repeat split; done.
  - vm_compute. reflexivity.
  - exists s'. split; [exact Hclick|]. apply Hacc. right. exists (0, 1)%nat.
    split; [reflexivity|]. unfold eightNeighbor. simpl. lia.
Defined.

(** C2. A click on a cell that holds any letter of the selected word, with a
    selection that still has letters to place, empties that one cell and
    leaves every other cell alone.  Afterwards the next index is
    [max 0 (m + 1)] for the highest sequence index [m] of the word still on
    the grid ([-1] when none is left), and the last placed coordinates are
    those of the cell holding [m], or absent when none is left. *)
Theorem click_own_cell r c s w t k p :
  gridWf (gridCells s) ->
  selectionIs s w t k ->
  Sel.letterIndex (selectedWordData s) < jsLength t ->
  ownedAt (gridCells s) w r c p ->
  exists s', handleCellClick r c s = Some s'
    /\ cellAt (gridCells s') r c = None
    /\ (forall r' c', (r', c') <> (r, c) ->
          cellAt (gridCells s') r' c' = cellAt (gridCells s) r' c')
    /\ sameShape (gridCells s) (gridCells s')
    /\ (exists m,
          highestAt (gridCells s') w m (Sel.lastPlacedCoords (selectedWordData s'))
          /\ Sel.letterIndex (selectedWordData s') = Z.max 0 (m + 1))
    /\ Sel.id (selectedWordData s') = Some w
    /\ Sel.text (selectedWordData s') = Some t
    /\ Sel.color (selectedWordData s') = Some k.
Proof.
  intros Hwf Hsel Hlt [Hcell Hown].
  pose proof (cellAt_rendered _ _ _ _ Hcell) as Hrend.
  pose proof (rendered_row _ _ _ Hrend) as Hrow.
  rewrite (click_active r c s w t k Hrow Hsel), Hcell.
  destruct (Z.geb_spec (Sel.letterIndex (selectedWordData s)) (jsLength t)); [lia|].
  rewrite (proj2 (String.eqb_eq _ _) Hown).
  exists (toggledOff r c w s). split; [done|]. unfold toggledOff. simpl.
  assert (Hwf' : gridWf (setCell (gridCells s) r c None)).
  { intros r' c' p' Hp'. destruct (decide ((r', c') = (r, c))) as [[= -> ->]|Hne].
    - by rewrite cellAt_setCell_same in Hp'.
    - rewrite cellAt_setCell_other in Hp' by done. by eapply Hwf. }
  split; [by apply cellAt_setCell_same|].
  split; [intros r' c' Hne; by apply cellAt_setCell_other|].
  split; [by apply sameShape_setCell|].
  split; [eexists; split; [by apply scanWord_highest|done]|].
  by destruct Hsel as (? & ? & ? & _).
Qed.

Lemma click_own_cell_witness :
  exists s', handleCellClick 0 0 catTwoLetters = Some s'
    /\ cellAt (gridCells s') 0 0 = None
    /\ Sel.letterIndex (selectedWordData s') = 2
    /\ Sel.lastPlacedCoords (selectedWordData s') = Some (0, 1)%nat.
Proof.
  destruct (click_own_cell 0 0 catTwoLetters "w1" "cat" "#EF4444"
              (mkPlacement "C" "w1" "#EF4444" 0 0 0))
    as (s' & Hclick & Hcell & _).
  - apply gridWfb_sound. reflexivity.
  - repeat split; done.
  - vm_compute. reflexivity.
  - split; reflexivity.
  - exists s'. split; [exact Hclick|]. split; [exact Hcell|].
    assert (Hs : Some s' = handleCellClick 0 0 catTwoLetters) by by rewrite Hclick.
    vm_compute in Hs. injection Hs as ->. split; reflexivity.
Defined.

(** ** Selecting a word *)

(** C3. Selecting a word that is not the current selection leaves the grid
    as it is and makes the selection that word, with the trimmed text, the
    next index [m + 1] and the coordinates of the cell holding [m], where [m]
    is the highest sequence index of the word on the grid; with no cell of
    the word on the grid the next index is 0 and the coordinates are absent. *)
Theorem select_resumes wId wordText wordColor s :
  gridWf (gridCells s) ->
  Sel.id (selectedWordData s) <> Some wId ->
  let s' := handleSelectWord wId wordText wordColor s in
  gridCells s' = gridCells s
  /\ Sel.id (selectedWordData s') = Some wId
  /\ Sel.text (selectedWordData s') = Some (trim wordText)
  /\ Sel.color (selectedWordData s') = Some wordColor
  /\ exists m,
       highestAt (gridCells s) wId m (Sel.lastPlacedCoords (selectedWordData s'))
       /\ Sel.letterIndex (selectedWordData s') = m + 1
       /\ (m = -1 <-> forall r c p, ~ ownedAt (gridCells s) wId r c p).
Proof.
  intros Hwf Hne%strictEq_false. unfold handleSelectWord. rewrite Hne.
  pose proof (scanWord_highest (gridCells s) wId Hwf) as Hhi.
  destruct (scanWord (gridCells s) wId) as [m lp]. simpl in *.
  repeat split; try done. exists m. split; [done|]. split.
  - destruct (Z.eqb_spec m (-1)); [subst; done|done].
  - split.
    + intros ->. destruct Hhi as [(_ & _ & Hnone)|(r & c & p & [Hc _] & Hs & _)]; [done|].
      apply Hwf in Hc. lia.
    + intros Hnone. destruct Hhi as [(-> & _)|(r & c & p & Hown & _)]; [done|].
      by apply Hnone in Hown.
Qed.

Lemma select_resumes_witness :
  Sel.text (selectedWordData (handleSelectWord "w1" " cat " "#EF4444" catDeselected))
  = Some "cat"
  /\ Sel.letterIndex (selectedWordData (handleSelectWord "w1" " cat " "#EF4444" catDeselected))
     = 2.
Proof.
  destruct (select_resumes "w1" " cat " "#EF4444" catDeselected)
    as (_ & _ & Htext & _ & m & _ & _ & _).
  - apply gridWfb_sound. reflexivity.
  - vm_compute. discriminate.
  - split; [exact Htext|reflexivity].
Defined.

(** A select either toggles the selection off or replaces it; it never
    writes the grid. *)
Lemma select_grid wId wordText wordColor s :
  gridCells (handleSelectWord wId wordText wordColor s) = gridCells s.
Proof.
  unfold handleSelectWord. destruct (strictEq _ _); [done|].
  by destruct (scanWord (gridCells s) wId).
Qed.

Lemma select_selected wId wordText wordColor s :
  Sel.id (selectedWordData s) = Some wId ->
  selectedWordData (handleSelectWord wId wordText wordColor s) = noSelection.
Proof.
  intros Hid%strictEq_true. unfold handleSelectWord. by rewrite Hid.
Qed.





(** C5. An accepted placement of the last letter of the selected word ends
    with no selection; the clicked cell holds the new placement and no other
    cell of the grid changes. *)
Theorem final_letter_deselects r c s w t k :
  rendered (gridCells s) r c = true ->
  cellAt (gridCells s) r c = None ->
  selectionIs s w t k ->
  Sel.letterIndex (selectedWordData s) + 1 = jsLength t ->
  (Sel.letterIndex (selectedWordData s) = 0
   \/ exists a, Sel.lastPlacedCoords (selectedWordData s) = Some a
                /\ eightNeighbor a (r, c)) ->
  exists s', handleCellClick r c s = Some s'
    /\ selectedWordData s' = noSelection
    /\ cellAt (gridCells s') r c
       = Some (mkPlacement
                 (toUpperCase (charAt t (Sel.letterIndex (selectedWordData s))))
                 w k (Sel.letterIndex (selectedWordData s)) r c)
    /\ (forall r' c', (r', c') <> (r, c) ->
          cellAt (gridCells s') r' c' = cellAt (gridCells s) r' c')
    /\ sameShape (gridCells s) (gridCells s').
Proof.
  intros Hrend Hempty Hsel Hlast Hacc.
  pose proof (rendered_row _ _ _ Hrend) as Hrow.
  rewrite (click_active r c s w t k Hrow Hsel), Hempty.
  destruct (Z.geb_spec (Sel.letterIndex (selectedWordData s)) (jsLength t)); [lia|].
  assert (Hvalid : (Sel.letterIndex (selectedWordData s) =? 0)
                   || isNeighbor (Sel.lastPlacedCoords (selectedWordData s))
                        (Some (r, c)) = true).
  { by rewrite orb_true_iff, Z.eqb_eq, isNeighbor_spec. }
  rewrite Hvalid. eexists. split; [done|]. unfold placed.
  destruct (Z.geb_spec (Sel.letterIndex (selectedWordData s) + 1) (jsLength t)); [|lia].
  simpl. split; [done|]. split; [by apply cellAt_setCell_same|].
  split; [intros r' c' Hne; by apply cellAt_setCell_other|by apply sameShape_setCell].
Qed.

Lemma final_letter_deselects_witness :
  exists s', handleCellClick 1 1 catTwoLetters = Some s'
    /\ selectedWordData s' = noSelection.
Proof.
  destruct (final_letter_deselects 1 1 catTwoLetters "w1" "cat" "#EF4444")
    as (s' & Hclick & Hsel & _).
  - reflexivity.
  - reflexivity.
  - repeat split; done.
  - reflexivity.
  - right. exists (0, 1)%nat. split; [reflexivity|]. unfold eightNeighbor. simpl. lia.
  - exists s'. split; [exact Hclick|exact Hsel].
Defined.

(** ** Rejected clicks *)

(** C6 as stated fails where its cases overlap: a click on a cell of another
    word while the selection is exhausted does not leave the selection
    unchanged, it clears it. *)
Lemma click_other_word_counterexample :
  reachable catExhausted
  /\ Sel.id (selectedWordData catExhausted) = Some "w1"
  /\ (exists p, cellAt (gridCells catExhausted) 2 2 = Some p /\ wordId p = "w2")
  /\ handleCellClick 2 2 catExhausted
     = Some (setSelectedWordData noSelection catExhausted)
  /\ selectedWordData (setSelectedWordData noSelection catExhausted)
     <> selectedWordData catExhausted.
Proof.
  split.
  { exists catExhaustedEvents. vm_compute. reflexivity. }
  split; [reflexivity|]. split; [eexists; split; reflexivity|].
  split; [reflexivity|]. vm_compute. discriminate.
Qed.

(** C6, as amended.  A click on a rendered row is a no-op when no selection
    is active, and when the cell holds a letter of a word other than the
    selected one while the selection still has letters to place.  A click
    while the next index is at or past the end of the selected text leaves
    the grid unchanged and clears the selection. *)
Theorem rejected_clicks r c s :
  is_Some (gridCells s !! r) ->
  (selectionActive s = false -> handleCellClick r c s = Some s)
  /\ (forall w t k p,
        selectionIs s w t k ->
        Sel.letterIndex (selectedWordData s) < jsLength t ->
        cellAt (gridCells s) r c = Some p -> wordId p <> w ->
        handleCellClick r c s = Some s)
  /\ (forall w t k,
        selectionIs s w t k ->
        jsLength t <= Sel.letterIndex (selectedWordData s) ->
        exists s', handleCellClick r c s = Some s'
          /\ gridCells s' = gridCells s
          /\ selectedWordData s' = noSelection).
Proof.
  intros Hrow. split; [by apply click_inactive|]. split.
  - intros w t k p Hsel Hlt Hcell Hne.
    rewrite (click_active r c s w t k Hrow Hsel), Hcell.
    destruct (Z.geb_spec (Sel.letterIndex (selectedWordData s)) (jsLength t)); [lia|].
    by rewrite (proj2 (String.eqb_neq _ _) Hne).
  - intros w t k Hsel Hge.
    rewrite (click_active r c s w t k Hrow Hsel).
    destruct (Z.geb_spec (Sel.letterIndex (selectedWordData s)) (jsLength t)); [|lia].
    by eexists.
Qed.

Lemma rejected_clicks_witness :
  handleCellClick 3 3 initialState = Some initialState
  /\ handleCellClick 2 2 catOverDog = Some catOverDog
  /\ exists s', handleCellClick 5 5 catExhausted = Some s'
       /\ gridCells s' = gridCells catExhausted
       /\ selectedWordData s' = noSelection.
Proof.
  split; [|split].
  - apply (rejected_clicks 3 3 initialState); [by eexists|reflexivity].
  - apply (rejected_clicks 2 2 catOverDog (ltac:(by eexists)))
      with (w := "w1") (t := "cat") (k := "#EF4444")
           (p := mkPlacement "D" "w2" "#3B82F6" 0 2 2).
    + repeat split; done.
    + vm_compute. reflexivity.
    + reflexivity.
    + discriminate.
  - apply (rejected_clicks 5 5 catExhausted (ltac:(by eexists)))
      with (w := "w1") (t := "cat") (k := "#EF4444").
    + repeat split; done.
    + vm_compute. discriminate.
Defined.

(** ** Clearing a word *)

(** C7. [clearCellsForWord] empties the cells of the word and changes no other
    cell.  When the word is the current selection its progress restarts (next
    index 0, no last placed coordinates) and its id, text and colour stay; a
    selection of another word, or no selection, is left as it was. *)
Theorem clear_cells_frame w s :
  let s' := clearCellsForWord w s in
  (forall r c p, ownedAt (gridCells s) w r c p -> cellAt (gridCells s') r c = None)
  /\ (forall r c, (forall p, ~ ownedAt (gridCells s) w r c p) ->
        cellAt (gridCells s') r c = cellAt (gridCells s) r c)
  /\ sameShape (gridCells s) (gridCells s')
  /\ (Sel.id (selectedWordData s) = Some w ->
        Sel.letterIndex (selectedWordData s') = 0
        /\ Sel.lastPlacedCoords (selectedWordData s') = None
        /\ Sel.id (selectedWordData s') = Some w
        /\ Sel.text (selectedWordData s') = Sel.text (selectedWordData s)
        /\ Sel.color (selectedWordData s') = Sel.color (selectedWordData s))
  /\ (Sel.id (selectedWordData s) <> Some w ->
        selectedWordData s' = selectedWordData s).
Proof.
  intros s'.
  assert (Hgrid : gridCells s' = map (map (clearCell w)) (gridCells s)).
  { unfold s', clearCellsForWord. by destruct (strictEq _ _). }
  rewrite Hgrid. split; [|split; [|split; [|split]]].
  - intros r c p [Hcell Hown]. rewrite cellAt_clear, Hcell. simpl.
    by rewrite (proj2 (String.eqb_eq _ _) Hown).
  - intros r c Hnot. rewrite cellAt_clear.
    destruct (cellAt (gridCells s) r c) as [p|] eqn:Hcell; [|done]. simpl.
    destruct (String.eqb_spec (wordId p) w) as [Hown|]; [|done].
    by destruct (Hnot p).
  - apply sameShape_clear.
  - intros Hid. pose proof (proj2 (strictEq_true _ _) Hid) as Heq.
    unfold s', clearCellsForWord. rewrite Heq. simpl. by rewrite Hid.
  - intros Hid%strictEq_false. unfold s', clearCellsForWord. by rewrite Hid.
Qed.

Lemma clear_cells_frame_witness :
  cellAt (gridCells (clearCellsForWord "w1" catOverDog)) 0 0 = None
  /\ cellAt (gridCells (clearCellsForWord "w1" catOverDog)) 2 2
     = Some (mkPlacement "D" "w2" "#3B82F6" 0 2 2)
  /\ Sel.letterIndex (selectedWordData catOverDog) = 1
  /\ Sel.letterIndex (selectedWordData (clearCellsForWord "w1" catOverDog)) = 0
  /\ Sel.lastPlacedCoords (selectedWordData (clearCellsForWord "w1" catOverDog)) = None
  /\ selectedWordData (clearCellsForWord "w2" catOverDog) = selectedWordData catOverDog.
Proof.
  pose proof (clear_cells_frame "w1" catOverDog) as Hcat. cbv zeta in Hcat.
  destruct Hcat as (Hown & Hother & _ & Hsel & _).
  pose proof (clear_cells_frame "w2" catOverDog) as Hdog. cbv zeta in Hdog.
  destruct Hdog as (_ & _ & _ & _ & Hkeep).
  destruct Hsel as (Hidx & Hlast & _); [reflexivity|].
  split; [apply (Hown 0%nat 0%nat (mkPlacement "C" "w1" "#EF4444" 0 0 0)); split; reflexivity|].
  split.
  { rewrite Hother; [reflexivity|]. intros p [Hp Hw].
    assert (Hd : Some p = Some (mkPlacement "D" "w2" "#3B82F6" 0 2 2))
      by (rewrite <- Hp; reflexivity).
    injection Hd as ->. discriminate Hw. }
  split; [reflexivity|]. split; [exact Hidx|]. split; [exact Hlast|].
  apply Hkeep. vm_compute. discriminate.
Defined.

(** ** Every handler preserves the invariant *)

Lemma subgrid_refl g : subgrid g g.
Proof. by intros r c p. Qed.

Lemma subgrid_clear w g : subgrid (map (map (clearCell w)) g) g.
Proof.
  intros r c p. rewrite cellAt_clear. destruct (cellAt g r c) as [q|]; [|done].
  simpl. by destruct (String.eqb (wordId q) w).
Qed.

Lemma subgrid_setCell_None g r c : subgrid (setCell g r c None) g.
Proof.
  intros r' c' p Hp. destruct (decide ((r', c') = (r, c))) as [[= -> ->]|Hne].
  - destruct (g !! r) as [cells|] eqn:Hr.
    + rewrite cellAt_setCell_same in Hp; [done|]. rewrite Hr. eauto.
    + unfold setCell in Hp. by rewrite Hr in Hp.
  - by rewrite cellAt_setCell_other in Hp.
Qed.

Lemma Inv_noSelection g sel :
  Inv g sel -> Inv g noSelection.
Proof. intros [Hwf Hco Hun _ _ _]. by split. Qed.

Lemma Inv_subgrid g g' sel :
  subgrid g' g -> Inv g sel -> Inv g' sel.
Proof.
  intros Hsub [Hwf Hco Hun Hnn Hab Hla]. split; try done.
  - intros r c p Hp. eauto.
  - intros r c p Hp. eauto.
  - intros r1 c1 p1 r2 c2 p2 H1 H2. eauto.
  - intros w r c p Hid [Hp Hw]. eapply Hab; [done|]. split; eauto.
Qed.

(** A selection whose progress was just recomputed by the scan. *)
Lemma Inv_rescanned g sel sel' w m :
  Inv g sel -> Sel.id sel' = Some w ->
  highestAt g w m (Sel.lastPlacedCoords sel') ->
  Sel.letterIndex sel' = m + 1 ->
  Inv g sel'.
Proof.
  intros [Hwf Hco Hun _ _ _] Hid Hhi Hidx.
  pose proof (highestAt_bound _ _ _ _ Hwf Hhi) as Hm.
  split; try done.
  - lia.
  - intros w' r c p Hid' Hown. rewrite Hid in Hid'. injection Hid' as <-.
    destruct Hhi as [(_ & _ & Hnone)|(_ & _ & _ & _ & _ & _ & Hmax)].
    + by apply Hnone in Hown.
    + apply Hmax in Hown. lia.
  - intros Hnz. destruct Hhi as [(-> & _)|(r & c & p & _ & _ & -> & _)]; [lia|eauto].
Qed.

Lemma Inv_clear w s : invariant s -> invariant (clearCellsForWord w s).
Proof.
  unfold invariant, clearCellsForWord. intros HI.
  pose proof (Inv_subgrid _ _ _ (subgrid_clear w (gridCells s)) HI) as HI'.
  destruct (strictEq (Sel.id (selectedWordData s)) w) eqn:Hid; simpl; [|done].
  apply strictEq_true in Hid. destruct HI' as [Hwf Hco Hun _ _ _]. split; try done.
  intros w' r c p Hid' [Hp Hw]. simpl in *. rewrite Hid in Hid'. injection Hid' as <-.
  rewrite cellAt_clear in Hp. destruct (cellAt (gridCells s) r c) as [q|]; [|done].
  simpl in Hp. destruct (String.eqb_spec (wordId q) w); [done|]. congruence.
Qed.

Lemma Inv_select wId wordText wordColor s :
  invariant s -> invariant (handleSelectWord wId wordText wordColor s).
Proof.
  unfold invariant, handleSelectWord. intros HI.
  destruct (strictEq _ _); simpl; [by eapply Inv_noSelection|].
  pose proof (scanWord_highest (gridCells s) wId (inv_wf _ _ HI)) as Hhi.
  destruct (scanWord (gridCells s) wId) as [m lp]. simpl in *.
  eapply (Inv_rescanned _ _ _ wId m); try done. simpl.
  destruct (Z.eqb_spec m (-1)); [subst; done|done].
Qed.

Lemma Inv_toggledOff r c w s :
  invariant s -> Sel.id (selectedWordData s) = Some w -> invariant (toggledOff r c w s).
Proof.
  unfold invariant, toggledOff. intros HI Hid. simpl.
  pose proof (Inv_subgrid _ _ _ (subgrid_setCell_None (gridCells s) r c) HI) as HI'.
  pose proof (scanWord_highest _ w (inv_wf _ _ HI')) as Hhi.
  pose proof (highestAt_bound _ _ _ _ (inv_wf _ _ HI') Hhi) as Hm.
  eapply (Inv_rescanned _ _ _ w); try done. simpl. lia.
Qed.

Lemma Inv_placed r c w t k s :
  invariant s -> Sel.id (selectedWordData s) = Some w ->
  cellAt (gridCells s) r c = None -> is_Some (gridCells s !! r) ->
  invariant (placed r c w t k s).
Proof.
  unfold invariant. intros [Hwf Hco Hun Hnn Hab Hla] Hid Hempty Hrow.
  set (i := Sel.letterIndex (selectedWordData s)).
  set (np := mkPlacement (toUpperCase (charAt t i)) w k i r c).
  set (g' := setCell (gridCells s) r c (Some np)).
  assert (Hcases : forall r' c' p, cellAt g' r' c' = Some p ->
            (r' = r /\ c' = c /\ p = np) \/ cellAt (gridCells s) r' c' = Some p).
  { intros r' c' p Hp. destruct (decide ((r', c') = (r, c))) as [[= -> ->]|Hne].
    - unfold g' in Hp. rewrite cellAt_setCell_same in Hp by done. left. naive_solver.
    - unfold g' in Hp. rewrite cellAt_setCell_other in Hp by done. by right. }
  assert (HI' : forall sel', 0 <= Sel.letterIndex sel' ->
            (Sel.id sel' = Some w -> i < Sel.letterIndex sel') ->
            (Sel.id sel' = None \/ Sel.id sel' = Some w) ->
            (Sel.letterIndex sel' <> 0 -> is_Some (Sel.lastPlacedCoords sel')) ->
            Inv g' sel').
  { intros sel' Hnn' Hab' Hid' Hla'. split; try done.
    - intros r' c' p [(-> & -> & ->)|Hp]%Hcases; [done|eauto].
    - intros r' c' p [(-> & -> & ->)|Hp]%Hcases; [done|eauto].
    - intros r1 c1 p1 r2 c2 p2 [(-> & -> & ->)|H1]%Hcases [(-> & -> & ->)|H2]%Hcases Hw Hs;
        simpl in *; [done| | |eauto].
      + assert (sequenceIndex p2 < i) by (eapply Hab; [done|by split]). lia.
      + assert (sequenceIndex p1 < i) by (eapply Hab; [done|by split]). lia.
    - intros w' r' c' p Hw' [Hp Hown]. destruct Hid' as [Hnone|Hsome]; [congruence|].
      rewrite Hsome in Hw'. injection Hw' as <-. specialize (Hab' Hsome).
      apply Hcases in Hp as [(-> & -> & ->)|Hp]; [done|].
      assert (sequenceIndex p < i) by (eapply Hab; [done|by split]). lia. }
  unfold placed. fold i np g'.
  destruct (i + 1 >=? jsLength t); simpl; apply HI'; simpl; try done; try lia; eauto.
Qed.

Lemma Inv_click r c s s' :
  invariant s -> handleCellClick r c s = Some s' -> invariant s'.
Proof.
  intros HI Hclick.
  destruct (gridCells s !! r) as [cells|] eqn:Hr;
    [|by rewrite click_row_missing in Hclick].
  assert (Hrow : is_Some (gridCells s !! r)) by (rewrite Hr; eauto).
  destruct (selectionActive s) eqn:Hact.
  - apply selectionActive_is in Hact as (w & t & k & Hsel).
    rewrite (click_active r c s w t k Hrow Hsel) in Hclick.
    destruct Hsel as (Hid & _).
    destruct (Sel.letterIndex (selectedWordData s) >=? jsLength t).
    { injection Hclick as <-. by eapply Inv_noSelection. }
    destruct (cellAt (gridCells s) r c) as [p|] eqn:Hcell.
    + destruct (String.eqb (wordId p) w); injection Hclick as <-; [|done].
      by apply Inv_toggledOff.
    + destruct (_ || _); injection Hclick as <-; [|done]. by apply Inv_placed.
  - rewrite click_inactive in Hclick by done. by injection Hclick as <-.
Qed.

Lemma Inv_saveEdit wId s : invariant s -> invariant (handleSaveEdit wId s).
Proof.
  intros HI. unfold handleSaveEdit.
  destruct (negb _); [|done].
  destruct (findWord (enteredWords s) wId) as [ow|]; [|done].
  destruct (negb _); [|done]. by apply (Inv_clear wId) in HI.
Qed.

Lemma Inv_step e s s' : invariant s -> step e s = Some s' -> invariant s'.
Proof.
  intros HI Hstep. destruct e; simpl in Hstep;
    try (injection Hstep as <-; first [exact HI | by apply Inv_clear
      | by apply Inv_select | by apply Inv_saveEdit | idtac]).
  - unfold handleAddWord. by destruct (negb _).
  - by eapply Inv_noSelection.
  - by eapply Inv_click.
Qed.

Lemma Inv_initial : invariant initialState.
Proof.
  split; simpl; try done.
  - intros r c p Hp. by rewrite cellAt_emptyGrid in Hp.
  - intros r c p Hp. by rewrite cellAt_emptyGrid in Hp.
  - intros r1 c1 p1 r2 c2 p2 Hp. by rewrite cellAt_emptyGrid in Hp.
Qed.

Lemma Inv_run evs : forall s s', invariant s -> run evs s = Some s' -> invariant s'.
Proof.
  induction evs as [|e evs IH]; intros s s' HI Hrun; simpl in Hrun.
  - by injection Hrun as <-.
  - destruct (dispatchable s e); [|done].
    destruct (step e s) as [s1|] eqn:Hstep; [|done].
    eapply IH; [|done]. by eapply Inv_step.
Qed.

Lemma Inv_reachable s : reachable s -> invariant s.
Proof. intros [evs Hrun]. eapply Inv_run; [apply Inv_initial|done]. Qed.

(** Reachable grids are well formed and keep the 8 by 6 shape. *)
Lemma reachable_wf s :
  reachable s -> gridWf (gridCells s) /\ coordsOk (gridCells s).
Proof.
  intros HI%Inv_reachable. split; [apply (inv_wf _ _ HI)|apply (inv_coords _ _ HI)].
Qed.

Lemma shape_click r c s s' :
  rendered (gridCells s) r c = true -> handleCellClick r c s = Some s' ->
  sameShape (gridCells s) (gridCells s').
Proof.
  intros Hrend Hclick. pose proof (rendered_row _ _ _ Hrend) as Hrow.
  destruct (selectionActive s) eqn:Hact.
  - apply selectionActive_is in Hact as (w & t & k & Hsel).
    rewrite (click_active r c s w t k Hrow Hsel) in Hclick.
    destruct (Sel.letterIndex (selectedWordData s) >=? jsLength t);
      [by injection Hclick as <-|].
    destruct (cellAt (gridCells s) r c) as [p|].
    + destruct (String.eqb (wordId p) w); injection Hclick as <-; [|done].
      by apply sameShape_setCell.
    + destruct (_ || _); injection Hclick as <-; [|done].
      unfold placed. destruct (_ >=? _); by apply sameShape_setCell.
  - rewrite click_inactive in Hclick by done. by injection Hclick as <-.
Qed.

Lemma shape_step e s s' :
  dispatchable s e = true -> step e s = Some s' ->
  sameShape (gridCells s) (gridCells s').
Proof.
  intros Hd Hstep. destruct e; simpl in Hstep;
    try (injection Hstep as <-; first [done | idtac]).
  - unfold handleAddWord. by destruct (negb _).
  - unfold handleSaveEdit. destruct (negb _); [|done].
    destruct (findWord _ _) as [ow|]; [|done]. destruct (negb _); [|done].
    unfold clearCellsForWord. destruct (strictEq _ _); apply sameShape_clear.
  - unfold handleClearWordCellsButton, clearCellsForWord.
    destruct (strictEq _ _); apply sameShape_clear.
  - unfold sameShape. by rewrite select_grid.
  - by apply (shape_click rowIndex colIndex).
Qed.

Lemma shape_run evs : forall s s',
  run evs s = Some s' -> sameShape (gridCells s) (gridCells s').
Proof.
  induction evs as [|e evs IH]; intros s s' Hrun; simpl in Hrun.
  - by injection Hrun as <-.
  - destruct (dispatchable s e) eqn:Hd; [|done].
    destruct (step e s) as [s1|] eqn:Hstep; [|done].
    unfold sameShape in *. rewrite (shape_step e s s1 Hd Hstep). by apply IH.
Qed.

(** C4. In every reachable state no two occupied cells share a word and a
    sequence index, and every handler the component can dispatch from there
    (cell clicks, selecting and deselecting, clearing a word, saving a
    rename, and the rest) leads to a state where this holds again. *)
Theorem unique_cells_reachable s :
  reachable s ->
  uniqueCells (gridCells s)
  /\ forall e s', dispatchable s e = true -> step e s = Some s' ->
       uniqueCells (gridCells s').
Proof.
  intros Hreach. apply Inv_reachable in Hreach. split.
  - apply (inv_unique _ _ Hreach).
  - intros e s' _ Hstep. apply (inv_unique _ (selectedWordData s')).
    by apply (Inv_step e s s').
Qed.

Lemma unique_cells_reachable_witness :
  uniqueCells (gridCells catExhausted)
  /\ uniqueCells (gridCells (handleClearWordCellsButton "w1" catExhausted)).
Proof.
  destruct (unique_cells_reachable catExhausted) as [Hnow Hnext].
  - exists catExhaustedEvents. vm_compute. reflexivity.
  - split; [exact Hnow|].
    apply (Hnext (ClearWordCells "w1")); reflexivity.
Defined.

(** C10. In every reachable state a next index other than 0 comes with last
    placed coordinates, and so it does after every handler dispatched from
    there.  Hence whenever a click reaches the adjacency check (active
    selection with letters left, empty cell, not the first letter) the
    coordinates handed to [isNeighbor] are present. *)
Theorem positive_index_has_coords s :
  reachable s ->
  (0 < Sel.letterIndex (selectedWordData s) ->
     is_Some (Sel.lastPlacedCoords (selectedWordData s)))
  /\ (forall e s', dispatchable s e = true -> step e s = Some s' ->
        0 < Sel.letterIndex (selectedWordData s') ->
        is_Some (Sel.lastPlacedCoords (selectedWordData s')))
  /\ (forall w t k r c,
        selectionIs s w t k ->
        Sel.letterIndex (selectedWordData s) < jsLength t ->
        cellAt (gridCells s) r c = None ->
        (Sel.letterIndex (selectedWordData s) =? 0) = false ->
        is_Some (Sel.lastPlacedCoords (selectedWordData s))).
Proof.
  intros Hreach. apply Inv_reachable in Hreach. split; [|split].
  - intros Hpos. apply (inv_last _ _ Hreach). lia.
  - intros e s' _ Hstep Hpos.
    apply (inv_last (gridCells s') (selectedWordData s')); [|lia].
    by apply (Inv_step e s s').
  - intros w t k r c _ _ _ Hnz%Z.eqb_neq. by apply (inv_last _ _ Hreach).
Qed.

Lemma positive_index_has_coords_witness :
  is_Some (Sel.lastPlacedCoords (selectedWordData catExhausted)).
Proof.
  destruct (positive_index_has_coords catExhausted) as [Hnow _].
  - exists catExhaustedEvents. vm_compute. reflexivity.
  - apply Hnow. vm_compute. reflexivity.
Defined.

(** ** The export file *)

Lemma reachable_rectangular s : reachable s -> rectangular 8 6 (gridCells s).
Proof.
  intros [evs Hrun%shape_run]. unfold sameShape in Hrun. simpl in Hrun.
  split.
  - apply (f_equal length) in Hrun. by rewrite length_map in Hrun.
  - apply Forall_forall. intros cells Hin.
    apply (list_elem_of_fmap_2 length) in Hin.
    change (length <$> gridCells s) with (map length (gridCells s)) in Hin.
    rewrite <- Hrun in Hin. apply list_elem_of_In in Hin. simpl in Hin.
    repeat (destruct Hin as [Hin|Hin]; [done|]). done.
Qed.

Lemma row_tabulate (cells : list Cell) :
  map (fun c => default None (cells !! c)) (seq 0 (length cells)) = cells.
Proof.
  apply list_eq. intros i. rewrite list_lookup_fmap.
  destruct (decide (i < length cells)%nat) as [Hlt|Hge].
  - rewrite lookup_seq_lt by done. simpl.
    destruct (lookup_lt_is_Some_2 cells i Hlt) as [x Hx]. by rewrite Hx.
  - rewrite lookup_seq_ge by lia. simpl. symmetry. apply lookup_ge_None_2. lia.
Qed.

Lemma concat_scan cols (g : Grid) : forall pre : Grid,
  Forall (fun cells => length cells = cols) g ->
  concat g
  = flat_map (fun r => map (fun c => cellAt (pre ++ g) r c) (seq 0 cols))
             (seq (length pre) (length g)).
Proof.
  induction g as [|cells rest IH]; intros pre Hall; simpl; [done|].
  apply Forall_cons in Hall as [Hlen Hall]. f_equal.
  - rewrite <- (row_tabulate cells) at 1. rewrite Hlen. apply map_ext. intros c.
    unfold cellAt. by rewrite list_lookup_middle.
  - rewrite (IH (pre ++ [cells])%list Hall), length_app, <- app_assoc. simpl.
    by rewrite Nat.add_1_r.
Qed.

Lemma omap_scan (f : nat -> nat -> Cell) (rs cs : list nat) :
  omap (fun cell : Cell => cell) (flat_map (fun r => map (f r) cs) rs)
  = flat_map (fun rc : Coords => match f rc.1 rc.2 with
                                 | Some p => [p]
                                 | None => []
                                 end)
             (flat_map (fun r => map (fun c => (r, c)) cs) rs).
Proof.
  induction rs as [|r rs IH]; [done|].
  simpl. rewrite omap_app, flat_map_app, IH. f_equal.
  clear IH. induction cs as [|c cs IHc]; [done|].
  simpl. rewrite <- IHc. by destruct (f r c).
Qed.

Lemma markedCells_scan (g : Grid) :
  rectangular ExportSpec.ROWS ExportSpec.COLS g ->
  markedCells g
  = flat_map (fun rc : Coords => match cellAt g rc.1 rc.2 with
                                 | Some p => [p]
                                 | None => []
                                 end) ExportSpec.scanOrder.
Proof.
  intros [Hrows Hcols]. unfold markedCells, ExportSpec.scanOrder.
  rewrite (concat_scan ExportSpec.COLS g [] Hcols), Hrows.
  apply (omap_scan (cellAt g)).
Qed.

Lemma wordIndexFrom_position words wId : forall i,
  wordIndexFrom words wId i
  = match list_find (fun w => Word.id w = wId) words with
    | Some (j, _) => i + Z.of_nat j
    | None => -1
    end.
Proof.
  induction words as [|w rest IH]; intros i; simpl; [done|].
  destruct (String.eqb_spec (Word.id w) wId) as [Heq|Hne].
  - rewrite decide_True by done. simpl. lia.
  - rewrite decide_False by done. rewrite IH.
    destruct (list_find _ rest) as [[j x]|]; simpl; [lia|done].
Qed.

(** *** The decimal printers agree *)

Lemma append_assoc3 (a b c : string) : (a ++ b) ++ c = a ++ (b ++ c).
Proof.
  induction a as [|ch a IH]; [reflexivity|].
  change (String ch ((a ++ b) ++ c) = String ch (a ++ (b ++ c))). by rewrite IH.
Qed.

Lemma str_revapp d : forall acc,
  NilEmpty.string_of_uint (Decimal.revapp d acc)
  = NilEmpty.string_of_uint (Decimal.revapp d Decimal.Nil) ++ NilEmpty.string_of_uint acc.
Proof.
  induction d as [|d IH|d IH|d IH|d IH|d IH|d IH|d IH|d IH|d IH|d IH]; intros acc;
    simpl; [done|..];
    match goal with
    | |- NilEmpty.string_of_uint (Decimal.revapp d ?x)
         = NilEmpty.string_of_uint (Decimal.revapp d ?y) ++ _ =>
        rewrite (IH x), (IH y)
    end; simpl; rewrite append_assoc3; reflexivity.
Qed.

Lemma to_lu_nonnil n : DecimalNat.Unsigned.to_lu n <> Decimal.Nil.
Proof.
  induction n as [|n IH]; simpl; [discriminate|].
  by destruct (DecimalNat.Unsigned.to_lu n).
Qed.

Lemma showNat_rev n :
  showNat n = NilEmpty.string_of_uint (Decimal.rev (DecimalNat.Unsigned.to_lu n)).
Proof.
  unfold showNat. rewrite DecimalNat.Unsigned.to_uint_alt.
  pose proof (to_lu_nonnil n) as Hn.
  destruct (Decimal.rev (DecimalNat.Unsigned.to_lu n)) eqn:Hrev; try reflexivity.
  by apply DecimalFacts.rev_nil_inv in Hrev.
Qed.

Lemma showNat_small n : (n < 10)%nat -> showNat n = ExportSpec.digit n.
Proof. intros Hn. do 10 (destruct n as [|n]; [reflexivity|]). lia. Qed.

Lemma showNat_digit q r :
  q <> 0%nat -> (r < 10)%nat -> showNat (r + 10 * q) = showNat q ++ ExportSpec.digit r.
Proof.
  intros Hq Hr. rewrite !showNat_rev.
  do 10 (destruct r as [|r];
    [ rewrite ?Nat.add_succ_l, Nat.add_0_l, ?DecimalNat.Unsigned.to_lu_succ,
        (DecimalNat.Unsigned.to_lu_tenfold q Hq);
      unfold Decimal.rev; simpl Decimal.Little.succ; simpl Decimal.revapp;
      by rewrite str_revapp | ]).
  lia.
Qed.

Lemma showNat_step n :
  (10 <= n)%nat -> showNat n = showNat (n / 10) ++ ExportSpec.digit (n mod 10).
Proof.
  intros Hn. rewrite (Nat.div_mod_eq n 10) at 1. rewrite Nat.add_comm.
  apply showNat_digit; [|apply Nat.mod_upper_bound; lia].
  intros Hz. apply Nat.div_small_iff in Hz; lia.
Qed.

Lemma decimalFuel_show fuel : forall n,
  (n < fuel)%nat -> ExportSpec.decimalFuel fuel n = showNat n.
Proof.
  induction fuel as [|fuel IH]; intros n Hn; [lia|].
  cbn [ExportSpec.decimalFuel].
  destruct (Nat.ltb_spec n 10) as [Hsmall|Hbig]; [by rewrite showNat_small|].
  rewrite showNat_step by done. rewrite IH; [done|].
  pose proof (Nat.div_lt n 10). lia.
Qed.

Lemma decimalNat_show n : ExportSpec.decimalNat n = showNat n.
Proof. apply decimalFuel_show. lia. Qed.

Lemma pos_to_lu p :
  Pos.to_little_uint p = DecimalNat.Unsigned.to_lu (Pos.to_nat p).
Proof.
  induction p as [|p IH] using Pos.peano_ind; [reflexivity|].
  rewrite Pos2Nat.inj_succ. simpl DecimalNat.Unsigned.to_lu. rewrite <- IH.
  apply (DecimalPos.Unsigned.to_lu_succ (Npos p)).
Qed.

Lemma showPos p : NilZero.string_of_uint (Pos.to_uint p) = showNat (Pos.to_nat p).
Proof.
  unfold showNat, Pos.to_uint.
  by rewrite DecimalNat.Unsigned.to_uint_alt, pos_to_lu.
Qed.

Lemma decimalInt_show z : ExportSpec.decimalInt z = showZ z.
Proof.
  unfold ExportSpec.decimalInt, showZ. destruct z as [|p|p]; simpl.
  - reflexivity.
  - by rewrite decimalNat_show, showPos.
  - by rewrite decimalNat_show, showPos.
Qed.

(** *** The other pieces agree *)

Lemma joinWith_join sep items : ExportSpec.joinWith sep items = join sep items.
Proof.
  unfold join. induction items as [|x rest IH]; [done|].
  destruct rest as [|y rest]; [done|]. simpl in *. by rewrite IH.
Qed.

Lemma slot_cellAt g r c : ExportSpec.slot g r c = cellAt g r c.
Proof.
  unfold ExportSpec.slot, cellAt. rewrite !nth_lookup.
  destruct (g !! r) as [cells|]; simpl; [done|]. by destruct c.
Qed.

Lemma cellRecord_spec words p :
  cellRecord words p = ExportSpec.placementRecord words p.
Proof.
  unfold cellRecord, ExportSpec.placementRecord, ExportSpec.registryPosition, wordIndexOf.
  rewrite !decimalInt_show, !decimalNat_show, wordIndexFrom_position. simpl.
  by destruct (list_find _ words) as [[j x]|].
Qed.

(** C9. For a grid of 8 rows by 6 columns, any registry and any theme and
    hint, the exported text is the byte-order mark followed by four lines
    separated by line feeds: the theme, the hint, the word texts joined by
    commas in registry order, and the records [wordIndex;sequenceIndex;row;col]
    in decimal joined by commas, one per occupied cell in row-major order,
    where [wordIndex] is the position of the first registry word with the
    cell's word id, or [-1] when the registry has none. *)
Theorem export_format s :
  rectangular 8 6 (gridCells s) ->
  fileContent s
  = ExportSpec.file (themeText s) (hintText s) (enteredWords s) (gridCells s).
Proof.
  intros Hrect.
  unfold fileContent, ExportSpec.file, ExportSpec.body, wordsLine, gridDataLine.
  rewrite (markedCells_scan _ Hrect), (joinWith_join ExportSpec.newline),
    (joinWith_join "," (map Word.text (enteredWords s))),
    (joinWith_join "," (flat_map _ _)).
  assert (Hrecs : map (cellRecord (enteredWords s))
            (flat_map (fun rc : Coords => match cellAt (gridCells s) rc.1 rc.2 with
                                          | Some p => [p]
                                          | None => []
                                          end) ExportSpec.scanOrder)
          = flat_map (ExportSpec.recordsAt (enteredWords s) (gridCells s))
              ExportSpec.scanOrder).
  { generalize ExportSpec.scanOrder as l. induction l as [|rc l IH]; [done|].
    simpl. rewrite map_app, IH. f_equal. unfold ExportSpec.recordsAt.
    rewrite slot_cellAt. destruct (cellAt (gridCells s) rc.1 rc.2); [|done]. simpl.
    by rewrite cellRecord_spec. }
  rewrite Hrecs.
  change BOM with ExportSpec.byteOrderMark. change LF with ExportSpec.newline.
  reflexivity.
Qed.

Lemma export_format_witness :
  fileContent exportSample
  = String "239"%char (String "187"%char (String "191"%char
      "Animals
Farm
CAT,DOG
0;0;0;0,1;2;3;4,-1;10;7;5")).
Proof.
  rewrite (export_format exportSample).
  - vm_compute. reflexivity.
  - split; [reflexivity|]. vm_compute. repeat constructor.
Defined.

(** The export scenario of the specification, on the code alone. *)
Example export_scenario :
  fileContent farmState
  = String "239"%char (String "187"%char (String "191"%char
      "Animals
Farm
CAT,DOG
0;0;0;0")).
Proof. vm_compute. reflexivity. Qed.

(** ** Reasoning about runs *)

Lemma run_app evs1 evs2 : forall s,
  run (evs1 ++ evs2) s = match run evs1 s with
                         | Some s1 => run evs2 s1
                         | None => None
                         end.
Proof.
  induction evs1 as [|e evs1 IH]; intros s; simpl; [done|].
  destruct (dispatchable s e); [|done]. destruct (step e s) as [s1|]; [|done]. apply IH.
Qed.

Lemma reachable_step e s s' :
  reachable s -> dispatchable s e = true -> step e s = Some s' -> reachable s'.
Proof.
  intros [evs Hrun] Hd Hstep. exists (evs ++ [e])%list.
  rewrite run_app, Hrun. simpl. by rewrite Hd, Hstep.
Qed.

(** Induction over reachable states, with the base invariant at hand. *)
Lemma reachable_ind (P : State -> Prop) :
  P initialState ->
  (forall e s s', reachable s -> P s -> dispatchable s e = true ->
                  step e s = Some s' -> P s') ->
  forall s, reachable s -> P s.
Proof.
  intros Hinit Hstep s [evs Hrun]. revert s Hrun.
  induction evs as [|e evs IH] using rev_ind; intros s Hrun.
  - simpl in Hrun. by injection Hrun as <-.
  - rewrite run_app in Hrun. destruct (run evs initialState) as [s1|] eqn:Hrun1; [|done].
    simpl in Hrun. destruct (dispatchable s1 e) eqn:Hd; [|done].
    destruct (step e s1) as [s2|] eqn:Hs; [|done]. injection Hrun as <-.
    apply (Hstep e s1 s2); eauto. by exists evs.
Qed.

(** The four outcomes of a click that does not throw. *)
Lemma click_cases r c s s' :
  handleCellClick r c s = Some s' ->
  s' = s
  \/ (selectionActive s = true /\ s' = setSelectedWordData noSelection s)
  \/ (exists w t k p, selectionIs s w t k
        /\ Sel.letterIndex (selectedWordData s) < jsLength t
        /\ ownedAt (gridCells s) w r c p /\ s' = toggledOff r c w s)
  \/ (exists w t k, selectionIs s w t k
        /\ Sel.letterIndex (selectedWordData s) < jsLength t
        /\ cellAt (gridCells s) r c = None
        /\ (Sel.letterIndex (selectedWordData s) =? 0)
           || isNeighbor (Sel.lastPlacedCoords (selectedWordData s)) (Some (r, c)) = true
        /\ s' = placed r c w t k s).
Proof.
  intros Hclick.
  destruct (gridCells s !! r) as [cells|] eqn:Hr;
    [|by rewrite click_row_missing in Hclick].
  assert (Hrow : is_Some (gridCells s !! r)) by (rewrite Hr; eauto).
  destruct (selectionActive s) eqn:Hact.
  - apply selectionActive_is in Hact as (w & t & k & Hsel).
    pose proof (selectionIs_active _ _ _ _ Hsel) as Hact.
    rewrite (click_active r c s w t k Hrow Hsel) in Hclick.
    destruct (Z.geb_spec (Sel.letterIndex (selectedWordData s)) (jsLength t)).
    { injection Hclick as <-. right. by left. }
    destruct (cellAt (gridCells s) r c) as [p|] eqn:Hcell.
    + destruct (String.eqb_spec (wordId p) w); injection Hclick as <-; [|by left].
      right. right. left. by exists w, t, k, p.
    + destruct (_ || _) eqn:Hvalid; injection Hclick as <-; [|by left].
      right. right. right. by exists w, t, k.
  - rewrite click_inactive in Hclick by done. injection Hclick as <-. by left.
Qed.

(** ** More on [isNeighbor] and on single clicks *)

(** X1. [isNeighbor] is symmetric, never holds between a cell and itself,
    and is false as soon as one of the coordinates is [null]. *)
Theorem isNeighbor_symmetric a b :
  isNeighbor a b = isNeighbor b a
  /\ isNeighbor a a = false
  /\ isNeighbor None b = false
  /\ isNeighbor a None = false.
Proof.
  repeat split.
  - destruct a as [[r1 c1]|], b as [[r2 c2]|]; simpl; try done.
    replace (Z.abs (Z.of_nat r2 - Z.of_nat r1)) with (Z.abs (Z.of_nat r1 - Z.of_nat r2)) by lia.
    by replace (Z.abs (Z.of_nat c2 - Z.of_nat c1)) with (Z.abs (Z.of_nat c1 - Z.of_nat c2)) by lia.
  - destruct a as [[r1 c1]|]; simpl; [|done].
    by rewrite !Z.sub_diag.
  - by destruct a as [[r1 c1]|].
Qed.

(** X2. The click handler throws exactly when the row index is not a row of
    the grid, whatever the selection is. *)
Theorem click_throws_iff r c s :
  handleCellClick r c s = None <-> gridCells s !! r = None.
Proof.
  split; [|apply click_row_missing].
  intros Hnone. destruct (gridCells s !! r) as [cells|] eqn:Hr; [|done].
  assert (Hrow : is_Some (gridCells s !! r)) by (rewrite Hr; eauto).
  destruct (selectionActive s) eqn:Hact.
  - apply selectionActive_is in Hact as (w & t & k & Hsel).
    rewrite (click_active r c s w t k Hrow Hsel) in Hnone.
    destruct (_ >=? _); [done|].
    destruct (cellAt (gridCells s) r c) as [p|].
    + by destruct (String.eqb _ _).
    + by destruct (_ || _).
  - by rewrite click_inactive in Hnone.
Qed.

Lemma toggledOff_fields r c w s :
  gridCells (toggledOff r c w s) = setCell (gridCells s) r c None
  /\ currentWord (toggledOff r c w s) = currentWord s
  /\ enteredWords (toggledOff r c w s) = enteredWords s
  /\ editMode (toggledOff r c w s) = editMode s
  /\ editedWordText (toggledOff r c w s) = editedWordText s
  /\ themeText (toggledOff r c w s) = themeText s
  /\ hintText (toggledOff r c w s) = hintText s
  /\ nextColorIndex (toggledOff r c w s) = nextColorIndex s.
Proof. done. Qed.

Lemma placed_fields r c w t k s :
  gridCells (placed r c w t k s)
  = setCell (gridCells s) r c
      (Some (mkPlacement (toUpperCase (charAt t (Sel.letterIndex (selectedWordData s))))
               w k (Sel.letterIndex (selectedWordData s)) r c))
  /\ currentWord (placed r c w t k s) = currentWord s
  /\ enteredWords (placed r c w t k s) = enteredWords s
  /\ editMode (placed r c w t k s) = editMode s
  /\ editedWordText (placed r c w t k s) = editedWordText s
  /\ themeText (placed r c w t k s) = themeText s
  /\ hintText (placed r c w t k s) = hintText s
  /\ nextColorIndex (placed r c w t k s) = nextColorIndex s.
Proof. unfold placed. by destruct (_ >=? _). Qed.

Lemma click_frame r c s s' :
  handleCellClick r c s = Some s' ->
  (forall r' c', (r', c') <> (r, c) ->
     cellAt (gridCells s') r' c' = cellAt (gridCells s) r' c')
  /\ currentWord s' = currentWord s
  /\ enteredWords s' = enteredWords s
  /\ editMode s' = editMode s
  /\ editedWordText s' = editedWordText s
  /\ themeText s' = themeText s
  /\ hintText s' = hintText s
  /\ nextColorIndex s' = nextColorIndex s.
Proof.
  intros [->|[[_ ->]|[(w & t & k & p & _ & _ & _ & ->)|(w & t & k & _ & _ & _ & _ & ->)]]]%click_cases;
    try done.
  - destruct (toggledOff_fields r c w s) as (-> & ?). split; [|done].
    intros r' c' Hne. by apply cellAt_setCell_other.
  - destruct (placed_fields r c w t k s) as (-> & ?). split; [|done].
    intros r' c' Hne. by apply cellAt_setCell_other.
Qed.

(** X3. A click changes no cell other than the clicked one, and nothing of
    the state besides the grid and the selection. *)
Theorem click_changes_one_cell r c s s' :
  handleCellClick r c s = Some s' ->
  (forall r' c', (r', c') <> (r, c) ->
     cellAt (gridCells s') r' c' = cellAt (gridCells s) r' c')
  /\ currentWord s' = currentWord s
  /\ enteredWords s' = enteredWords s
  /\ editMode s' = editMode s
  /\ editedWordText s' = editedWordText s
  /\ themeText s' = themeText s
  /\ hintText s' = hintText s
  /\ nextColorIndex s' = nextColorIndex s.
Proof. apply click_frame. Qed.

Lemma click_changes_one_cell_witness :
  cellAt (gridCells (toggledOff 0 0 "w1" catTwoLetters)) 0 1
  = cellAt (gridCells catTwoLetters) 0 1.
Proof.
  destruct (click_changes_one_cell 0 0 catTwoLetters (toggledOff 0 0 "w1" catTwoLetters))
    as [Hframe _].
  - vm_compute. reflexivity.
  - apply Hframe. discriminate.
Defined.

(** X4. A click never changes a cell that holds a letter of a word other
    than the selected one: such a placement is still there afterwards,
    the clicked cell included. *)
Theorem click_keeps_other_words r c s s' r' c' p :
  handleCellClick r c s = Some s' ->
  cellAt (gridCells s) r' c' = Some p ->
  Sel.id (selectedWordData s) <> Some (wordId p) ->
  cellAt (gridCells s') r' c' = Some p.
Proof.
  intros Hclick Hp Hother.
  destruct (decide ((r', c') = (r, c))) as [[= -> ->]|Hne].
  - apply click_cases in Hclick
      as [->|[[_ ->]|[(w & t & k & q & Hsel & _ & [Hq Hw] & ->)|(w & t & k & _ & _ & He & _ & ->)]]];
      try done.
    + destruct Hsel as (Hid & _). congruence.
    + congruence.
  - destruct (click_frame r c s s' Hclick) as [Hframe _].
    by rewrite Hframe.
Qed.

Lemma click_keeps_other_words_witness :
  cellAt (gridCells (placed 0 1 "w1" "cat" "#EF4444" catOverDog)) 2 2
  = Some (mkPlacement "D" "w2" "#3B82F6" 0 2 2).
Proof.
  apply (click_keeps_other_words 0 1 catOverDog).
  - vm_compute. reflexivity.
  - vm_compute. reflexivity.
  - vm_compute. discriminate.
Defined.

(** ** The selection always sits at the resumption point *)

Lemma highestAt_unique g w m lp m' lp' :
  uniqueCells g -> highestAt g w m lp -> highestAt g w m' lp' -> m = m' /\ lp = lp'.
Proof.
  intros Hun [(-> & -> & Hnone)|(r & c & p & Hown & <- & -> & Hmax)]
             [(-> & -> & Hnone')|(r' & c' & p' & Hown' & <- & -> & Hmax')]; try done.
  - by apply Hnone in Hown'.
  - by apply Hnone' in Hown.
  - pose proof (Hmax _ _ _ Hown'). pose proof (Hmax' _ _ _ Hown).
    assert (Hs : sequenceIndex p = sequenceIndex p') by lia. split; [done|].
    destruct Hown as [Hc Hw], Hown' as [Hc' Hw'].
    destruct (Hun r c p r' c' p' Hc Hc') as [-> ->]; [congruence|done|done].
Qed.

Lemma ownedAt_clear_other w w' g r c p :
  w' <> w -> ownedAt (map (map (clearCell w)) g) w' r c p <-> ownedAt g w' r c p.
Proof.
  intros Hne. unfold ownedAt. rewrite cellAt_clear.
  destruct (cellAt g r c) as [q|]; simpl; [|done].
  destruct (String.eqb_spec (wordId q) w) as [Hq|Hq]; [|done].
  split; [by intros [? _]|]. intros [[= ->] Hw]. congruence.
Qed.

Lemma ownedAt_clear_same w g r c p : ~ ownedAt (map (map (clearCell w)) g) w r c p.
Proof.
  unfold ownedAt. rewrite cellAt_clear. intros [Hc Hw].
  destruct (cellAt g r c) as [q|]; simpl in Hc; [|done].
  destruct (String.eqb_spec (wordId q) w) as [Hq|Hq]; [done|]. congruence.
Qed.

Lemma progressOk_ext s s' :
  gridCells s' = gridCells s -> selectedWordData s' = selectedWordData s ->
  progressOk s -> progressOk s'.
Proof. unfold progressOk. by intros -> ->. Qed.

Lemma progressOk_clear w s : progressOk s -> progressOk (clearCellsForWord w s).
Proof.
  unfold progressOk, clearCellsForWord. intros Hp w' Hid.
  destruct (strictEq (Sel.id (selectedWordData s)) w) eqn:Hsel; simpl in *.
  - apply strictEq_true in Hsel. rewrite Hsel in Hid. injection Hid as <-.
    left. split; [done|]. split; [done|]. intros r c p. apply ownedAt_clear_same.
  - assert (Hne : w' <> w).
    { intros ->. apply strictEq_true in Hid. congruence. }
    destruct (Hp w' Hid) as [(Hm & Hlp & Hnone)|(r & c & p & Hown & Hs & Hlp & Hmax)].
    + left. split; [done|]. split; [done|].
      intros r c p Hown%ownedAt_clear_other; [|done]. by apply Hnone in Hown.
    + right. exists r, c, p. split; [by apply ownedAt_clear_other|].
      split; [done|]. split; [done|].
      intros r' c' p' Hown'%ownedAt_clear_other; [|done]. by apply (Hmax r' c').
Qed.

Lemma progressOk_select wId wordText wordColor s :
  invariant s -> progressOk (handleSelectWord wId wordText wordColor s).
Proof.
  intros HI. unfold progressOk, handleSelectWord.
  destruct (strictEq _ _); simpl; [done|].
  pose proof (scanWord_highest (gridCells s) wId (inv_wf _ _ HI)) as Hhi.
  destruct (scanWord (gridCells s) wId) as [m lp]. simpl in *.
  intros w [= <-]. destruct (Z.eqb_spec m (-1)) as [->|]; [done|].
  by replace (m + 1 - 1) with m by lia.
Qed.

Lemma click_row r c s s' : handleCellClick r c s = Some s' -> is_Some (gridCells s !! r).
Proof.
  intros Hclick. destruct (gridCells s !! r) eqn:Hr; [eauto|].
  by rewrite click_row_missing in Hclick.
Qed.

Lemma progressOk_click r c s s' :
  invariant s -> progressOk s -> handleCellClick r c s = Some s' -> progressOk s'.
Proof.
  intros HI Hp Hclick. pose proof (Inv_click r c s s' HI Hclick) as HI'.
  pose proof (click_row r c s s' Hclick) as Hrow.
  apply click_cases in Hclick
    as [->|[[_ ->]|[(w & t & k & p & Hsel & _ & _ & ->)|(w & t & k & Hsel & _ & He & _ & ->)]]];
    try done.
  - destruct Hsel as (Hid & _). intros w' Hid'.
    assert (Hwf : gridWf (setCell (gridCells s) r c None)) by apply (inv_wf _ _ HI').
    unfold toggledOff in *. simpl in *.
    rewrite Hid in Hid'. injection Hid' as <-.
    pose proof (scanWord_highest _ w Hwf) as Hhi.
    pose proof (highestAt_bound _ _ _ _ Hwf Hhi) as Hm.
    set (m := (scanWord (setCell (gridCells s) r c None) w).1) in *.
    by replace (Z.max 0 (m + 1) - 1) with m by lia.
  - destruct Hsel as (Hid & _). unfold invariant in HI'. revert HI'.
    unfold progressOk, placed.
    destruct (_ >=? _); simpl; [done|]. intros HI' w' Hid'.
    rewrite Hid in Hid'. injection Hid' as <-.
    right. exists r, c. eexists.
    split; [split; [by apply cellAt_setCell_same|done]|].
    simpl. split; [lia|]. split; [done|].
    intros r' c' p' Hown. pose proof (inv_above _ _ HI' w r' c' p' Hid Hown) as Hlt.
    simpl in Hlt. lia.
Qed.

Lemma progressOk_saveEdit wId s : progressOk s -> progressOk (handleSaveEdit wId s).
Proof.
  intros Hp. unfold handleSaveEdit. destruct (negb _); [|done].
  destruct (findWord _ _) as [ow|]; [|done]. destruct (negb _); [|done].
  by apply (progressOk_clear wId) in Hp.
Qed.

Lemma progressOk_step e s s' :
  invariant s -> progressOk s -> step e s = Some s' -> progressOk s'.
Proof.
  intros HI Hp Hstep. destruct e; simpl in Hstep;
    try (injection Hstep as <-; first [exact Hp | by apply progressOk_clear
      | by apply progressOk_select | by apply progressOk_saveEdit | idtac]).
  - unfold handleAddWord. by destruct (negb _).
  - done.
  - by eapply progressOk_click.
Qed.

Lemma progressOk_reachable s : reachable s -> progressOk s.
Proof.
  apply reachable_ind; [done|].
  intros e s0 s1 Hreach Hp _ Hstep. eapply progressOk_step; eauto.
  by apply Inv_reachable.
Qed.

(** In a reachable state the selection's progress is what the scan computes. *)
Lemma progress_is_scan s w :
  reachable s -> Sel.id (selectedWordData s) = Some w ->
  Sel.letterIndex (selectedWordData s) = (scanWord (gridCells s) w).1 + 1
  /\ Sel.lastPlacedCoords (selectedWordData s) = (scanWord (gridCells s) w).2.
Proof.
  intros Hreach Hid. pose proof (Inv_reachable s Hreach) as HI.
  pose proof (progressOk_reachable s Hreach w Hid) as Hp.
  pose proof (scanWord_highest (gridCells s) w (inv_wf _ _ HI)) as Hscan.
  destruct (highestAt_unique _ _ _ _ _ _ (inv_unique _ _ HI) Hp Hscan) as [Hm Hlp].
  split; [lia|done].
Qed.

(** X5. In every reachable state with a selected word, the next index minus
    one is the highest sequence index of that word on the grid and the last
    placed coordinates are those of the cell holding it; with no cell of the
    word on the grid the next index is 0 and the coordinates are absent. *)
Theorem selection_at_resumption_point s w :
  reachable s -> Sel.id (selectedWordData s) = Some w ->
  highestAt (gridCells s) w (Sel.letterIndex (selectedWordData s) - 1)
            (Sel.lastPlacedCoords (selectedWordData s)).
Proof. intros Hreach Hid. by apply progressOk_reachable. Qed.

Lemma selection_at_resumption_point_witness :
  highestAt (gridCells catTwoLetters) "w1" 1 (Some (0, 1)%nat).
Proof.
  apply (selection_at_resumption_point catTwoLetters "w1").
  - exists (twoWords ++ [selectCat; CellClick 0 0; CellClick 0 1])%list.
    vm_compute. reflexivity.
  - reflexivity.
Defined.

(** X6. Deselecting the selected word and selecting it again, in a reachable
    state, resumes at the same next index and the same last placed
    coordinates, and leaves the grid as it was. *)
Theorem reselect_resumes s w t k t' k' :
  reachable s -> Sel.id (selectedWordData s) = Some w ->
  let s1 := handleSelectWord w t k s in
  let s2 := handleSelectWord w t' k' s1 in
  selectedWordData s1 = noSelection
  /\ Sel.id (selectedWordData s2) = Some w
  /\ Sel.letterIndex (selectedWordData s2) = Sel.letterIndex (selectedWordData s)
  /\ Sel.lastPlacedCoords (selectedWordData s2) = Sel.lastPlacedCoords (selectedWordData s)
  /\ gridCells s2 = gridCells s.
Proof.
  intros Hreach Hid. cbv zeta.
  destruct (progress_is_scan s w Hreach Hid) as [Hidx Hlp].
  pose proof (select_selected w t k s Hid) as Hs1.
  pose proof (select_grid w t k s) as Hg1.
  assert (Hge : -1 <= (scanWord (gridCells s) w).1).
  { eapply highestAt_bound; [|apply scanWord_highest];
      apply (inv_wf _ _ (Inv_reachable s Hreach)). }
  remember (handleSelectWord w t k s) as s1 eqn:Es1. clear Es1.
  split; [done|].
  unfold handleSelectWord. rewrite Hs1. simpl. rewrite Hg1, Hidx, Hlp.
  destruct (scanWord (gridCells s) w) as [m lp]. simpl in *.
  destruct (Z.eqb_spec m (-1)) as [->|]; done.
Qed.

Lemma reselect_resumes_witness :
  Sel.letterIndex
    (selectedWordData
       (handleSelectWord "w1" "cat" "#EF4444"
          (handleSelectWord "w1" "cat" "#EF4444" catTwoLetters))) = 2.
Proof.
  destruct (reselect_resumes catTwoLetters "w1" "cat" "#EF4444" "cat" "#EF4444")
    as (_ & _ & Hidx & _).
  - exists (twoWords ++ [selectCat; CellClick 0 0; CellClick 0 1])%list.
    vm_compute. reflexivity.
  - reflexivity.
  - exact Hidx.
Defined.

(** ** Toggling off undoes a placement *)

Lemma setCell_undo (g : Grid) r c v :
  rendered g r c = true -> cellAt g r c = None ->
  setCell (setCell g r c v) r c None = g.
Proof.
  unfold rendered, cellAt, setCell.
  destruct (g !! r) as [cells|] eqn:Hr; [|done]. intros Hc%Nat.ltb_lt Hempty.
  rewrite list_lookup_insert_eq by (by eapply lookup_lt_Some).
  rewrite list_insert_insert_eq.
  unfold writeAt at 2. destruct (Nat.ltb_spec c (length cells)); [|lia].
  unfold writeAt. rewrite length_insert. destruct (Nat.ltb_spec c (length cells)); [|lia].
  rewrite list_insert_insert_eq.
  destruct (lookup_lt_is_Some_2 cells c Hc) as [x Hx]. rewrite Hx in Hempty.
  simpl in Hempty. subst x.
  rewrite (list_insert_id cells c None Hx). by apply list_insert_id.
Qed.

(** X7. In a reachable state, an accepted placement that does not complete
    the word is undone by clicking the same cell again: the second click
    returns exactly the state before the first. *)
Theorem toggle_undoes_placement r c s w t k :
  reachable s ->
  selectionIs s w t k ->
  rendered (gridCells s) r c = true ->
  cellAt (gridCells s) r c = None ->
  Sel.letterIndex (selectedWordData s) + 1 < jsLength t ->
  (Sel.letterIndex (selectedWordData s) = 0
   \/ exists a, Sel.lastPlacedCoords (selectedWordData s) = Some a
                /\ eightNeighbor a (r, c)) ->
  exists s1, handleCellClick r c s = Some s1
    /\ is_Some (cellAt (gridCells s1) r c)
    /\ handleCellClick r c s1 = Some s.
Proof.
  intros Hreach Hsel Hrend Hempty Hmore Hacc.
  pose proof (rendered_row _ _ _ Hrend) as Hrow.
  pose proof (Inv_reachable s Hreach) as HI.
  pose proof (inv_nonneg _ _ HI) as Hnn.
  destruct (progress_is_scan s w Hreach (proj1 Hsel)) as [Hidx Hlp].
  assert (Hvalid : (Sel.letterIndex (selectedWordData s) =? 0)
                   || isNeighbor (Sel.lastPlacedCoords (selectedWordData s))
                        (Some (r, c)) = true).
  { by rewrite orb_true_iff, Z.eqb_eq, isNeighbor_spec. }
  exists (placed r c w t k s).
  split.
  { rewrite (click_active r c s w t k Hrow Hsel), Hempty, Hvalid.
    by destruct (Z.geb_spec (Sel.letterIndex (selectedWordData s)) (jsLength t)); [lia|]. }
  unfold placed.
  destruct (Z.geb_spec (Sel.letterIndex (selectedWordData s) + 1) (jsLength t)); [lia|].
  set (np := mkPlacement _ w k _ r c).
  set (s1 := setSelectedWordData _ _).
  assert (Hcell1 : cellAt (gridCells s1) r c = Some np) by by apply cellAt_setCell_same.
  split; [rewrite Hcell1; eauto|].
  assert (Hsel1 : selectionIs s1 w t k).
  { unfold selectionIs, s1, withProgress in *. simpl. exact Hsel. }
  assert (Hrow1 : is_Some (gridCells s1 !! r)).
  { eapply rendered_row, cellAt_rendered, Hcell1. }
  rewrite (click_active r c s1 w t k Hrow1 Hsel1), Hcell1.
  replace (Sel.letterIndex (selectedWordData s1))
    with (Sel.letterIndex (selectedWordData s) + 1) by done.
  destruct (Z.geb_spec (Sel.letterIndex (selectedWordData s) + 1) (jsLength t)); [lia|].
  replace (wordId np) with w by done. rewrite String.eqb_refl. f_equal.
  unfold toggledOff.
  replace (setCell (gridCells s1) r c None) with (gridCells s)
    by (symmetry; by apply setCell_undo).
  rewrite <- Hlp.
  replace (Z.max 0 ((scanWord (gridCells s) w).1 + 1))
    with (Sel.letterIndex (selectedWordData s)) by lia.
  destruct s as [cw ew em et [i tx co li lp] g th hi nc]. reflexivity.
Qed.

Lemma toggle_undoes_placement_witness :
  exists s1, handleCellClick 0 1 catOneLetter = Some s1
    /\ handleCellClick 0 1 s1 = Some catOneLetter.
Proof.
  destruct (toggle_undoes_placement 0 1 catOneLetter "w1" "cat" "#EF4444")
    as (s1 & Hfirst & _ & Hsecond).
  - exists (twoWords ++ [selectCat; CellClick 0 0])%list. vm_compute. reflexivity.
  - repeat split; done.
  - reflexivity.
  - reflexivity.
  - vm_compute. reflexivity.
  - right. exists (0, 0)%nat. split; [reflexivity|]. unfold eightNeighbor. simpl. lia.
  - exists s1. split; [exact Hfirst|exact Hsecond].
Defined.

(** ** Shape of the grid and of its placements *)

(** X8. The grid of every reachable state has 8 rows of 6 slots, and no
    dispatched handler changes the length of a row or the number of rows. *)
Theorem grid_dimensions_fixed s :
  reachable s ->
  rectangular 8 6 (gridCells s)
  /\ forall e s', dispatchable s e = true -> step e s = Some s' ->
       sameShape (gridCells s) (gridCells s').
Proof.
  intros Hreach. split; [by apply reachable_rectangular|].
  intros e s'. apply shape_step.
Qed.

Lemma grid_dimensions_fixed_witness : rectangular 8 6 (gridCells catExhausted).
Proof.
  apply (grid_dimensions_fixed catExhausted).
  exists catExhaustedEvents. vm_compute. reflexivity.
Defined.

Lemma toUpperCase_length t : String.length (toUpperCase t) = String.length t.
Proof. induction t as [|ch t IH]; simpl; [done|]. by rewrite IH. Qed.

Lemma get_in_range t : forall n, (n < String.length t)%nat -> is_Some (String.get n t).
Proof.
  induction t as [|ch t IH]; intros n Hn; simpl in *; [lia|].
  destruct n as [|n]; [eauto|]. apply IH. lia.
Qed.

Lemma charAt_length t i :
  0 <= i < jsLength t -> String.length (charAt t i) = 1%nat.
Proof.
  unfold jsLength, charAt. intros Hi.
  destruct (Z.ltb_spec i 0); [lia|].
  destruct (get_in_range t (Z.to_nat i)) as [ch ->]; [lia|done].
Qed.

Lemma lettersOk_subgrid g g' : subgrid g' g -> lettersOk g -> lettersOk g'.
Proof. intros Hsub Hl r c p Hp. eauto. Qed.

Lemma lettersOk_click r c s s' :
  invariant s -> lettersOk (gridCells s) -> handleCellClick r c s = Some s' ->
  lettersOk (gridCells s').
Proof.
  intros HI Hl Hclick. pose proof (click_row r c s s' Hclick) as Hrow.
  apply click_cases in Hclick
    as [->|[[_ ->]|[(w & t & k & p & _ & _ & _ & ->)|(w & t & k & _ & Hlt & _ & _ & ->)]]];
    try done.
  - destruct (toggledOff_fields r c w s) as (-> & _).
    eapply lettersOk_subgrid; [apply subgrid_setCell_None|done].
  - destruct (placed_fields r c w t k s) as (-> & _).
    intros r' c' p Hp. destruct (decide ((r', c') = (r, c))) as [[= -> ->]|Hne].
    + rewrite cellAt_setCell_same in Hp by done. injection Hp as <-. simpl.
      rewrite toUpperCase_length. apply charAt_length.
      pose proof (inv_nonneg _ _ HI). lia.
    + rewrite cellAt_setCell_other in Hp by done. eauto.
Qed.

Lemma lettersOk_clear w s :
  lettersOk (gridCells s) -> lettersOk (gridCells (clearCellsForWord w s)).
Proof.
  intros Hl. unfold clearCellsForWord.
  destruct (strictEq _ _); simpl; (eapply lettersOk_subgrid; [apply subgrid_clear|done]).
Qed.

Lemma lettersOk_step e s s' :
  invariant s -> lettersOk (gridCells s) -> step e s = Some s' -> lettersOk (gridCells s').
Proof.
  intros HI Hl Hstep. destruct e; simpl in Hstep;
    try (injection Hstep as <-; first [exact Hl | by apply lettersOk_clear | idtac]).
  - unfold handleAddWord. by destruct (negb _).
  - unfold handleSaveEdit. destruct (negb _); [|done].
    destruct (findWord _ _) as [ow|]; [|done]. destruct (negb _); [|done].
    by apply (lettersOk_clear wId) in Hl.
  - by rewrite select_grid.
  - by eapply lettersOk_click.
Qed.

Lemma lettersOk_reachable s : reachable s -> lettersOk (gridCells s).
Proof.
  revert s. apply (reachable_ind (fun s => lettersOk (gridCells s))).
  - intros r c p Hp. by rewrite cellAt_emptyGrid in Hp.
  - intros e s0 s1 Hreach IH _ Hstep. pose proof (Inv_reachable s0 Hreach).
    eapply lettersOk_step; eauto.
Qed.

(** X9. In every reachable state each placement on the grid records the
    coordinates of its own slot, has a non-negative sequence index, and
    carries a letter that is exactly one character long. *)
Theorem placements_well_formed s r c p :
  reachable s -> cellAt (gridCells s) r c = Some p ->
  row p = r /\ col p = c /\ 0 <= sequenceIndex p /\ String.length (letter p) = 1%nat.
Proof.
  intros Hreach Hp. pose proof (Inv_reachable s Hreach) as HI.
  destruct (inv_coords _ _ HI r c p Hp) as [Hr Hc].
  split; [done|]. split; [done|]. split.
  - by apply (inv_wf _ _ HI r c).
  - by apply (lettersOk_reachable s Hreach r c).
Qed.

Lemma placements_well_formed_witness :
  row (mkPlacement "A" "w1" "#EF4444" 1 0 1) = 0%nat
  /\ col (mkPlacement "A" "w1" "#EF4444" 1 0 1) = 1%nat
  /\ 0 <= sequenceIndex (mkPlacement "A" "w1" "#EF4444" 1 0 1)
  /\ String.length (letter (mkPlacement "A" "w1" "#EF4444" 1 0 1)) = 1%nat.
Proof.
  apply (placements_well_formed catTwoLetters 0 1).
  - exists (twoWords ++ [selectCat; CellClick 0 0; CellClick 0 1])%list.
    vm_compute. reflexivity.
  - reflexivity.
Defined.

(** ** Edit mode and the selection exclude each other *)

Lemma exclusive_click r c s s' :
  exclusive s -> handleCellClick r c s = Some s' -> exclusive s'.
Proof.
  intros Hex Hclick. destruct (click_frame r c s s' Hclick) as (_ & _ & _ & Hem & _).
  unfold exclusive in *. rewrite Hem. intros Hedit. specialize (Hex Hedit).
  apply click_cases in Hclick
    as [->|[[_ ->]|[(w & t & k & p & Hsel & _)|(w & t & k & Hsel & _)]]]; try done;
    destruct Hsel as (Hid & _); rewrite Hex in Hid; done.
Qed.

Lemma exclusive_clear w s : exclusive s -> exclusive (clearCellsForWord w s).
Proof.
  unfold exclusive, clearCellsForWord. intros Hex.
  destruct (strictEq _ _) eqn:Hid; simpl; [|done].
  intros Hedit. specialize (Hex Hedit). rewrite Hex in Hid. done.
Qed.

Lemma exclusive_step e s s' : exclusive s -> step e s = Some s' -> exclusive s'.
Proof.
  intros Hex Hstep. destruct e; simpl in Hstep;
    try (injection Hstep as <-; first [exact Hex | by apply exclusive_clear | idtac]).
  - unfold handleAddWord. by destruct (negb _).
  - by unfold exclusive.
  - unfold handleSaveEdit, exclusive. by destruct (negb _).
  - by unfold exclusive.
  - by unfold exclusive.
  - by eapply exclusive_click.
Qed.

Lemma exclusive_reachable s : reachable s -> exclusive s.
Proof.
  revert s. apply (reachable_ind exclusive); [done|].
  intros e s0 s1 _ IH _ Hstep. by eapply exclusive_step.
Qed.

(** X10. In every reachable state, while some word is in edit mode nothing is
    selected; in particular a click on the grid then changes nothing. *)
Theorem edit_mode_excludes_selection s :
  reachable s -> editMode s <> None ->
  selectedWordData s = noSelection
  /\ forall r c, rendered (gridCells s) r c = true -> handleCellClick r c s = Some s.
Proof.
  intros Hreach Hedit.
  pose proof (exclusive_reachable s Hreach Hedit) as Hex. split; [done|].
  intros r c Hrend%rendered_row. apply click_inactive; [done|].
  unfold selectionActive. by rewrite Hex.
Qed.

Lemma edit_mode_excludes_selection_witness :
  selectedWordData (after editingDogEvents) = noSelection.
Proof.
  apply (edit_mode_excludes_selection (after editingDogEvents)).
  - exists editingDogEvents. vm_compute. reflexivity.
  - vm_compute. discriminate.
Defined.

(** ** The word registry *)

Lemma clear_registry w s :
  enteredWords (clearCellsForWord w s) = enteredWords s
  /\ nextColorIndex (clearCellsForWord w s) = nextColorIndex s.
Proof. unfold clearCellsForWord. by destruct (strictEq _ _). Qed.

Lemma select_registry wId wordText wordColor s :
  enteredWords (handleSelectWord wId wordText wordColor s) = enteredWords s
  /\ nextColorIndex (handleSelectWord wId wordText wordColor s) = nextColorIndex s.
Proof.
  unfold handleSelectWord. destruct (strictEq _ _); [done|].
  by destruct (scanWord _ _).
Qed.

Lemma saveEdit_registry wId s :
  nextColorIndex (handleSaveEdit wId s) = nextColorIndex s
  /\ (enteredWords (handleSaveEdit wId s)
      = if String.eqb (trim (editedWordText s)) "" then enteredWords s
        else map (renameWord wId (trim (editedWordText s))) (enteredWords s)).
Proof.
  unfold handleSaveEdit. destruct (String.eqb _ ""); simpl; [done|].
  destruct (findWord _ _) as [ow|]; [|done]. destruct (negb _); [|done].
  by destruct (clear_registry wId s) as [_ ->].
Qed.

Lemma registryOk_ext s s' :
  enteredWords s' = enteredWords s -> nextColorIndex s' = nextColorIndex s ->
  registryOk s -> registryOk s'.
Proof. unfold registryOk. by intros -> ->. Qed.

Lemma registryOk_addWord newId s : registryOk s -> registryOk (handleAddWord newId s).
Proof.
  intros [Hcount Hwords]. unfold handleAddWord.
  destruct (String.eqb_spec (trim (currentWord s)) "") as [Hblank|Hne]; simpl; [done|].
  split; simpl.
  - rewrite length_app. simpl. lia.
  - intros i w Hi. apply lookup_app_Some in Hi as [Hi|[Hge Hi]]; [by apply Hwords|].
    apply list_lookup_singleton_Some in Hi as [Hi <-]. simpl.
    replace i with (length (enteredWords s)) by lia. by rewrite <- Hcount.
Qed.

Lemma registryOk_saveEdit wId s : registryOk s -> registryOk (handleSaveEdit wId s).
Proof.
  intros [Hcount Hwords]. destruct (saveEdit_registry wId s) as [Hn Hw].
  unfold registryOk. rewrite Hn, Hw.
  destruct (String.eqb_spec (trim (editedWordText s)) "") as [Hblank|Hne]; [done|].
  split; [by rewrite length_map|].
  intros i w Hi. change (map ?f ?l) with (f <$> l) in Hi.
  apply list_lookup_fmap_Some in Hi as (w0 & -> & Hi).
  destruct (Hwords i w0 Hi) as [Hcol Htext]. unfold renameWord.
  by destruct (String.eqb (Word.id w0) wId).
Qed.

Lemma registryOk_step e s s' : registryOk s -> step e s = Some s' -> registryOk s'.
Proof.
  intros Hreg Hstep. destruct e; simpl in Hstep;
    try (injection Hstep as <-; first [exact Hreg | by apply registryOk_addWord
      | by apply registryOk_saveEdit | idtac]).
  - destruct (clear_registry wId s). by eapply registryOk_ext.
  - destruct (select_registry wId wordText wordColor s). by eapply registryOk_ext.
  - destruct (click_frame _ _ _ _ Hstep) as (_ & _ & ? & _ & _ & _ & _ & ?).
    by eapply registryOk_ext.
Qed.

Lemma registryOk_reachable s : reachable s -> registryOk s.
Proof.
  revert s. apply (reachable_ind registryOk).
  - split; [done|]. intros i w Hi. simpl in Hi. by rewrite lookup_nil in Hi.
  - intros e s0 s1 _ IH _ Hstep. by eapply registryOk_step.
Qed.

(** X11. In every reachable state the colour counter equals the number of
    words (it is never reset and no word is ever dropped), the word at
    position [i] of the registry has the palette colour number [i mod 12],
    which is not empty, and no word has an empty text. *)
Theorem registry_colours_and_texts s i w :
  reachable s -> enteredWords s !! i = Some w ->
  nextColorIndex s = length (enteredWords s)
  /\ WORD_COLORS !! (i mod 12)%nat = Some (Word.color w)
  /\ Word.color w <> ""
  /\ Word.text w <> "".
Proof.
  intros Hreach Hi. destruct (registryOk_reachable s Hreach) as [Hcount Hwords].
  destruct (Hwords i w Hi) as [Hcol Htext]. split; [done|].
  assert (Hlt : (i mod 12 < 12)%nat) by (apply Nat.mod_upper_bound; lia).
  change (length WORD_COLORS) with 12%nat in Hcol.
  assert (Hlook : WORD_COLORS !! (i mod 12)%nat = Some (Word.color w)).
  { rewrite Hcol. generalize dependent (i mod 12)%nat. intros n _ Hn.
    do 12 (destruct n as [|n]; [reflexivity|]). lia. }
  split; [done|]. split; [|done].
  intros Hempty. rewrite Hempty in Hlook. apply list_elem_of_lookup_2 in Hlook.
  apply list_elem_of_In in Hlook. simpl in Hlook.
  repeat (destruct Hlook as [Hlook|Hlook]; [discriminate|]). done.
Qed.

Lemma registry_colours_and_texts_witness :
  WORD_COLORS !! (1 mod 12)%nat = Some "#3B82F6".
Proof.
  apply (registry_colours_and_texts catExhausted 1 (Word.mk "w2" "dog" "#3B82F6")).
  - exists catExhaustedEvents. vm_compute. reflexivity.
  - reflexivity.
Defined.

(** ** Adding and renaming words *)

Lemma trim_blank t : allWhiteSpace t = true -> trim t = "".
Proof.
  unfold trim. induction t as [|ch t IH]; simpl; [done|].
  intros [Hch Ht]%andb_true_iff. rewrite Hch. by apply IH.
Qed.

(** X12. A current input that is empty or made of white space only is
    rejected by [handleAddWord]: the state stays as it was.  Whenever the
    trimmed input is not empty the registry grows by exactly one word, placed
    last, and the grid and the selection are untouched. *)
Theorem add_word_blank_rejected newId s :
  (allWhiteSpace (currentWord s) = true -> handleAddWord newId s = s)
  /\ (trim (currentWord s) <> "" ->
      exists k, enteredWords (handleAddWord newId s)
                = (enteredWords s ++ [Word.mk newId (trim (currentWord s)) k])%list)
  /\ gridCells (handleAddWord newId s) = gridCells s
  /\ selectedWordData (handleAddWord newId s) = selectedWordData s.
Proof.
  unfold handleAddWord. split; [|split].
  - intros Hblank%trim_blank. by rewrite Hblank.
  - intros Hne. destruct (String.eqb_spec (trim (currentWord s)) ""); [done|].
    simpl. eauto.
  - by destruct (negb _).
Qed.

(** X13. [handleSaveEdit] always leaves edit mode and never changes the
    number, order, ids or colours of the words.  The text of a word changes
    only if its id is the saved one and the trimmed edit text is not empty,
    and then it becomes that trimmed text; an edit text of white space only
    changes no word. *)
Theorem save_edit_registry wId s :
  let s' := handleSaveEdit wId s in
  editMode s' = None
  /\ editedWordText s' = ""
  /\ map Word.id (enteredWords s') = map Word.id (enteredWords s)
  /\ map Word.color (enteredWords s') = map Word.color (enteredWords s)
  /\ map Word.text (enteredWords s')
     = map (fun w => if String.eqb (Word.id w) wId
                        && negb (String.eqb (trim (editedWordText s)) "")
                     then trim (editedWordText s) else Word.text w) (enteredWords s)
  /\ (allWhiteSpace (editedWordText s) = true -> enteredWords s' = enteredWords s).
Proof.
  intros s'. destruct (saveEdit_registry wId s) as [_ Hw]. fold s' in Hw.
  split; [unfold s', handleSaveEdit; by destruct (negb _)|].
  split; [unfold s', handleSaveEdit; by destruct (negb _)|].
  rewrite Hw. destruct (String.eqb (trim (editedWordText s)) "") eqn:Hblank; simpl.
  - repeat split; try done. apply map_ext. intros w. by rewrite andb_false_r.
  - repeat split.
    + rewrite map_map. apply map_ext. intros w. unfold renameWord.
      by destruct (String.eqb (Word.id w) wId).
    + rewrite map_map. apply map_ext. intros w. unfold renameWord.
      by destruct (String.eqb (Word.id w) wId).
    + rewrite map_map. apply map_ext. intros w. unfold renameWord.
      rewrite andb_true_r. by destruct (String.eqb (Word.id w) wId).
    + intros Hws%trim_blank. rewrite Hws in Hblank. done.
Qed.

(** X14. [handleSaveEdit] never adds or alters a placement and never touches
    a cell of another word.  It removes the cells of the saved word exactly
    when the word is in the registry and its first entry's text differs from
    the non-empty trimmed edit text; otherwise the grid and the selection
    are unchanged. *)
Theorem save_edit_grid wId s :
  let s' := handleSaveEdit wId s in
  let newText := trim (editedWordText s) in
  subgrid (gridCells s') (gridCells s)
  /\ (forall r c p, cellAt (gridCells s) r c = Some p -> wordId p <> wId ->
        cellAt (gridCells s') r c = Some p)
  /\ (forall ow, findWord (enteredWords s) wId = Some ow -> newText <> "" ->
        Word.text ow <> newText ->
        gridCells s' = gridCells (clearCellsForWord wId s)
        /\ selectedWordData s' = selectedWordData (clearCellsForWord wId s)
        /\ forall r c p, ~ ownedAt (gridCells s') wId r c p)
  /\ (newText = "" \/ findWord (enteredWords s) wId = None
      \/ (exists ow, findWord (enteredWords s) wId = Some ow /\ Word.text ow = newText) ->
      gridCells s' = gridCells s /\ selectedWordData s' = selectedWordData s).
Proof.
  intros s' newText.
  assert (Hcases : (gridCells s' = gridCells s /\ selectedWordData s' = selectedWordData s)
                   \/ (gridCells s' = gridCells (clearCellsForWord wId s)
                       /\ selectedWordData s' = selectedWordData (clearCellsForWord wId s))).
  { unfold s', handleSaveEdit. destruct (negb _); [|by left].
    destruct (findWord _ _) as [ow|]; [|by left]. destruct (negb _); [by right|by left]. }
  assert (Hclear : gridCells (clearCellsForWord wId s)
                   = map (map (clearCell wId)) (gridCells s)).
  { unfold clearCellsForWord. by destruct (strictEq _ _). }
  split; [|split; [|split]].
  - destruct Hcases as [[-> _]|[-> _]]; [apply subgrid_refl|].
    rewrite Hclear. apply subgrid_clear.
  - intros r c p Hp Hne. destruct Hcases as [[-> _]|[-> _]]; [done|].
    rewrite Hclear, cellAt_clear, Hp. simpl.
    by rewrite (proj2 (String.eqb_neq _ _) Hne).
  - intros ow Hfind Hne Hdiff.
    assert (Hs' : gridCells s' = gridCells (clearCellsForWord wId s)
                  /\ selectedWordData s' = selectedWordData (clearCellsForWord wId s)).
    { unfold s', handleSaveEdit. fold newText. rewrite Hfind.
      rewrite (proj2 (String.eqb_neq _ _) Hne), (proj2 (String.eqb_neq _ _) Hdiff). done. }
    destruct Hs' as [Hg Hsel]. split; [done|]. split; [done|].
    rewrite Hg, Hclear. intros r c p. apply ownedAt_clear_same.
  - unfold s', handleSaveEdit. fold newText.
    intros [->|[->|(ow & -> & ->)]].
    + done.
    + by destruct (negb _).
    + rewrite String.eqb_refl. by destruct (negb _).
Qed.

(** ** Clearing, once more *)

Lemma clearCell_idem w cell : clearCell w (clearCell w cell) = clearCell w cell.
Proof.
  destruct cell as [p|]; simpl; [|done].
  destruct (String.eqb (wordId p) w) eqn:E; simpl; [done|]. by rewrite E.
Qed.

Lemma clearCell_comm w1 w2 cell :
  clearCell w1 (clearCell w2 cell) = clearCell w2 (clearCell w1 cell).
Proof.
  destruct cell as [p|]; simpl; [|done].
  destruct (String.eqb (wordId p) w2) eqn:E2, (String.eqb (wordId p) w1) eqn:E1;
    simpl; rewrite ?E1, ?E2; done.
Qed.

Lemma clearGrid_idem w (g : Grid) :
  map (map (clearCell w)) (map (map (clearCell w)) g) = map (map (clearCell w)) g.
Proof.
  rewrite map_map. apply map_ext. intros cells. rewrite map_map.
  apply map_ext. apply clearCell_idem.
Qed.

Lemma clearGrid_comm w1 w2 (g : Grid) :
  map (map (clearCell w1)) (map (map (clearCell w2)) g)
  = map (map (clearCell w2)) (map (map (clearCell w1)) g).
Proof.
  rewrite !map_map. apply map_ext. intros cells. rewrite !map_map.
  apply map_ext. apply clearCell_comm.
Qed.

(** X15. Clearing a word twice is the same as clearing it once, and the
    order in which two words are cleared does not matter: in both cases the
    resulting states are equal. *)
Theorem clear_idempotent_commutative w1 w2 s :
  clearCellsForWord w1 (clearCellsForWord w1 s) = clearCellsForWord w1 s
  /\ clearCellsForWord w1 (clearCellsForWord w2 s)
     = clearCellsForWord w2 (clearCellsForWord w1 s).
Proof.
  destruct s as [cw ew em et [i tx co li lp] g th hi nc].
  unfold clearCellsForWord. simpl. split.
  - destruct (strictEq i w1) eqn:E1; simpl; rewrite E1; unfold setSelectedWordData,
      setGridCells, withProgress; simpl; by rewrite clearGrid_idem.
  - destruct (strictEq i w1) eqn:E1, (strictEq i w2) eqn:E2; simpl; rewrite ?E1, ?E2;
      unfold setSelectedWordData, setGridCells, withProgress; simpl;
      by rewrite (clearGrid_comm w1 w2).
Qed.

Lemma scanWord_none g w :
  (forall r c p, ~ ownedAt g w r c p) -> scanWord g w = (-1, None).
Proof.
  intros Hnone. destruct (scanWord g w) as [m lp] eqn:Hscan.
  apply scanWord_spec in Hscan as [_ [[-> ->]|(_ & r & c & p & _ & Hown & _)]]; [done|].
  by apply Hnone in Hown.
Qed.

(** X16. After [clearCellsForWord] no cell of the word is left on the grid,
    and selecting the word then (when it was not the selected one) starts it
    from scratch: next index 0 and no last placed coordinates. *)
Theorem clear_then_select_restarts w t k s :
  Sel.id (selectedWordData s) <> Some w ->
  let s1 := clearCellsForWord w s in
  let s2 := handleSelectWord w t k s1 in
  (forall r c p, ~ ownedAt (gridCells s1) w r c p)
  /\ Sel.id (selectedWordData s2) = Some w
  /\ Sel.letterIndex (selectedWordData s2) = 0
  /\ Sel.lastPlacedCoords (selectedWordData s2) = None.
Proof.
  intros Hne. cbv zeta.
  assert (Hg : gridCells (clearCellsForWord w s) = map (map (clearCell w)) (gridCells s)).
  { unfold clearCellsForWord. by destruct (strictEq _ _). }
  assert (Hnone : forall r c p, ~ ownedAt (gridCells (clearCellsForWord w s)) w r c p).
  { rewrite Hg. intros r c p. apply ownedAt_clear_same. }
  assert (Hsel : Sel.id (selectedWordData (clearCellsForWord w s)) <> Some w).
  { unfold clearCellsForWord. by rewrite (strictEq_false _ _ Hne). }
  split; [done|]. unfold handleSelectWord.
  rewrite (strictEq_false _ _ Hsel), (scanWord_none _ _ Hnone). done.
Qed.

Lemma clear_then_select_restarts_witness :
  Sel.letterIndex
    (selectedWordData
       (handleSelectWord "w1" "cat" "#EF4444" (clearCellsForWord "w1" catDeselected))) = 0.
Proof.
  destruct (clear_then_select_restarts "w1" "cat" "#EF4444" catDeselected)
    as (_ & _ & Hidx & _).
  - vm_compute. discriminate.
  - exact Hidx.
Defined.

(** ** The set of placed words *)

Lemma existsb_eqb_elem x (l : list string) : existsb (String.eqb x) l = true <-> x ∈ l.
Proof.
  rewrite existsb_exists, list_elem_of_In. split.
  - by intros (y & Hin & ->%String.eqb_eq).
  - intros Hin. exists x. by rewrite String.eqb_refl.
Qed.

Lemma setAdd_elem x y l : x ∈ setAdd y l <-> x = y \/ x ∈ l.
Proof.
  unfold setAdd. destruct (existsb (String.eqb y) l) eqn:E.
  - apply existsb_eqb_elem in E. split; [by right|]. by intros [->|].
  - rewrite elem_of_app, list_elem_of_singleton. tauto.
Qed.

Lemma setAdd_NoDup y l : NoDup l -> NoDup (setAdd y l).
Proof.
  intros Hnd. unfold setAdd. destruct (existsb (String.eqb y) l) eqn:E; [done|].
  apply NoDup_app. split; [done|]. split; [|apply NoDup_singleton].
  intros x Hx ->%list_elem_of_singleton.
  apply existsb_eqb_elem in Hx. congruence.
Qed.

Lemma collect_elem (cells : list Cell) : forall acc x,
  x ∈ foldl collectCell acc cells
  <-> x ∈ acc \/ (x <> "" /\ exists p, Some p ∈ cells /\ wordId p = x).
Proof.
  induction cells as [|cell rest IH]; intros acc x; simpl.
  - split; [by left|]. intros [|(_ & p & Hin & _)]; [done|]. by apply elem_of_nil in Hin.
  - rewrite IH. unfold collectCell. split.
    + intros [Hacc|(Hne & p & Hin & Hw)].
      * destruct cell as [q|]; [|by left].
        destruct (wordId q) as [|a rest'] eqn:Hq; simpl in Hacc; [by left|].
        apply setAdd_elem in Hacc as [->|Hacc]; [|by left].
        right. split; [done|]. exists q. split; [apply elem_of_cons; by left|done].
      * right. split; [done|]. exists p. split; [apply elem_of_cons; by right|done].
    + intros [Hacc|(Hne & p & Hin & Hw)].
      * left. destruct cell as [q|]; [|done].
        destruct (wordId q); simpl; [done|]. apply setAdd_elem. by right.
      * apply elem_of_cons in Hin as [<-|Hin].
        -- left. rewrite Hw. destruct x; [done|]. simpl. apply setAdd_elem. by left.
        -- right. split; [done|]. by exists p.
Qed.

Lemma collect_NoDup (cells : list Cell) : forall acc,
  NoDup acc -> NoDup (foldl collectCell acc cells).
Proof.
  induction cells as [|cell rest IH]; intros acc Hnd; simpl; [done|].
  apply IH. unfold collectCell. destruct cell as [q|]; [|done].
  destruct (truthy _); [by apply setAdd_NoDup|done].
Qed.

Lemma placedWordIds_flat (g : Grid) : forall acc,
  foldl (fun acc cells => foldl collectCell acc cells) acc g
  = foldl collectCell acc (concat g).
Proof.
  induction g as [|cells rest IH]; intros acc; simpl; [done|].
  by rewrite foldl_app, IH.
Qed.

Lemma elem_of_concat_cellAt (g : Grid) p :
  Some p ∈ concat g <-> exists r c, cellAt g r c = Some p.
Proof.
  rewrite list_elem_of_In, in_concat. split.
  - intros (cells & Hcells & Hp).
    apply list_elem_of_In, list_elem_of_lookup in Hcells as [r Hr].
    apply list_elem_of_In, list_elem_of_lookup in Hp as [c Hc].
    exists r, c. apply cellAt_Some. eauto.
  - intros (r & c & (cells & Hr & Hc)%cellAt_Some). exists cells.
    split; apply list_elem_of_In; by eapply list_elem_of_lookup_2.
Qed.

(** X17. The set computed by the effect on the grid holds exactly the
    non-empty word ids that own at least one cell of the grid, each once. *)
Theorem placed_word_ids_exact (g : Grid) :
  NoDup (placedWordIds g)
  /\ forall w, w ∈ placedWordIds g
               <-> w <> "" /\ exists r c p, ownedAt g w r c p.
Proof.
  unfold placedWordIds. rewrite placedWordIds_flat. split.
  - apply collect_NoDup, NoDup_nil_2.
  - intros w. rewrite collect_elem. split.
    + intros [Hin|(Hne & p & Hin & Hw)]; [by apply elem_of_nil in Hin|].
      split; [done|]. apply elem_of_concat_cellAt in Hin as (r & c & Hp).
      by exists r, c, p.
    + intros (Hne & r & c & p & Hp & Hw). right. split; [done|].
      exists p. split; [|done]. apply elem_of_concat_cellAt. eauto.
Qed.

(** ** Positions in the registry *)

(** X18. The word index written by the export is [-1] exactly when no word
    of the registry has the id; otherwise it is the position of the first
    word with that id, so it lies within the registry. *)
Theorem word_index_lookup words wId :
  (wordIndexOf words wId = -1 <-> forall w, w ∈ words -> Word.id w <> wId)
  /\ (forall i : nat, wordIndexOf words wId = Z.of_nat i ->
        exists w, words !! i = Some w /\ Word.id w = wId
          /\ forall j w', (j < i)%nat -> words !! j = Some w' -> Word.id w' <> wId)
  /\ -1 <= wordIndexOf words wId < Z.of_nat (length words).
Proof.
  unfold wordIndexOf. rewrite wordIndexFrom_position.
  destruct (list_find (fun w => Word.id w = wId) words) as [[j x]|] eqn:Hfind.
  - apply list_find_Some in Hfind as (Hj & Hx & Hfirst).
    split; [|split].
    + split; [lia|]. intros Hnone. exfalso. apply (Hnone x); [|done].
      by eapply list_elem_of_lookup_2.
    + intros i Hi. assert (i = j) as -> by lia. exists x.
      split; [done|]. split; [done|]. intros j' w' Hlt Hw'. by apply (Hfirst j').
    + apply lookup_lt_Some in Hj. lia.
  - apply list_find_None in Hfind. split; [|split].
    + split; [|done]. intros _ w Hw. rewrite Forall_forall in Hfind. by apply Hfind.
    + intros i Hi. lia.
    + lia.
Qed.

(** ** Ties in the scan *)





(** ** The letter count *)

Lemma total_from (words : list Word.t) : forall a,
  foldl (fun sum word => sum + calculateLetters (Word.text word)) a words
  = a + totalLetterCount words.
Proof.
  unfold totalLetterCount.
  induction words as [|w rest IH]; intros a; simpl; [lia|].
  rewrite (IH (a + calculateLetters (Word.text w))),
    (IH (0 + calculateLetters (Word.text w))). lia.
Qed.

Lemma total_app (l1 l2 : list Word.t) :
  totalLetterCount (l1 ++ l2) = totalLetterCount l1 + totalLetterCount l2.
Proof. unfold totalLetterCount at 1. rewrite foldl_app. fold (totalLetterCount l1). apply total_from. Qed.

(** X20. In every reachable state each word contributes at least one letter
    to the total shown to the author, so the total is at least the number of
    words; and a successful [handleAddWord] raises the total by the length of
    the trimmed input. *)
Theorem letter_count_bounds s newId :
  reachable s ->
  Z.of_nat (length (enteredWords s)) <= totalLetterCount (enteredWords s)
  /\ (trim (currentWord s) <> "" ->
      totalLetterCount (enteredWords (handleAddWord newId s))
      = totalLetterCount (enteredWords s) + jsLength (trim (currentWord s))).
Proof.
  intros Hreach. destruct (registryOk_reachable s Hreach) as [_ Hwords]. split.
  - revert Hwords. generalize (enteredWords s) as words.
    induction words as [|w rest IH] using rev_ind; intros Hwords; [done|].
    rewrite total_app, length_app. simpl.
    assert (Hrest : Z.of_nat (length rest) <= totalLetterCount rest).
    { apply IH. intros i w' Hi. apply (Hwords i). by apply lookup_app_l_Some. }
    destruct (Hwords (length rest) w) as [_ Htext].
    { by rewrite list_lookup_middle. }
    unfold totalLetterCount at 2. simpl. unfold calculateLetters, jsLength.
    destruct (Word.text w); [done|]. simpl. lia.
  - intros Hne. unfold handleAddWord.
    destruct (String.eqb_spec (trim (currentWord s)) ""); [done|]. simpl.
    rewrite total_app. f_equal.
Qed.

Lemma letter_count_bounds_witness :
  Z.of_nat (length (enteredWords catExhausted)) <= totalLetterCount (enteredWords catExhausted).
Proof.
  apply (letter_count_bounds catExhausted "w3").
  exists catExhaustedEvents. vm_compute. reflexivity.
Defined.

(** ** Consecutive letters stay adjacent *)

Lemma chainOk_subgrid g g' : subgrid g' g -> chainOk g -> chainOk g'.
Proof. intros Hsub Hch r1 c1 p1 r2 c2 p2 H1 H2. eauto. Qed.

Lemma chainOk_click r c s s' :
  invariant s -> progressOk s -> chainOk (gridCells s) ->
  handleCellClick r c s = Some s' -> chainOk (gridCells s').
Proof.
  intros HI Hp Hch Hclick. pose proof (click_row r c s s' Hclick) as Hrow.
  apply click_cases in Hclick
    as [->|[[_ ->]|[(w & t & k & p & _ & _ & _ & ->)|(w & t & k & Hsel & _ & He & Hvalid & ->)]]];
    try done.
  - destruct (toggledOff_fields r c w s) as (-> & _).
    eapply chainOk_subgrid; [apply subgrid_setCell_None|done].
  - destruct (placed_fields r c w t k s) as (-> & _).
    destruct Hsel as (Hid & _).
    set (i := Sel.letterIndex (selectedWordData s)) in *.
    set (np := mkPlacement _ w k i r c).
    assert (Hcases : forall r' c' q, cellAt (setCell (gridCells s) r c (Some np)) r' c' = Some q ->
              (r' = r /\ c' = c /\ q = np) \/ cellAt (gridCells s) r' c' = Some q).
    { intros r' c' q Hq. destruct (decide ((r', c') = (r, c))) as [[= -> ->]|Hne].
      - rewrite cellAt_setCell_same in Hq by done. left. naive_solver.
      - rewrite cellAt_setCell_other in Hq by done. by right. }
    intros r1 c1 p1 r2 c2 p2 [(-> & -> & ->)|H1]%Hcases [(-> & -> & ->)|H2]%Hcases Hw Hs;
      simpl in *.
    + lia.
    + assert (sequenceIndex p2 < i) by (eapply (inv_above _ _ HI); [done|by split]). lia.
    + destruct (Hp w Hid) as [(_ & _ & Hnone)|(r0 & c0 & p0 & [H0 Hw0] & Hs0 & Hlp & _)].
      { exfalso. by apply (Hnone r1 c1 p1). }
      destruct (inv_unique _ _ HI r0 c0 p0 r1 c1 p1 H0 H1) as [-> ->];
        [congruence|fold i in Hs0; lia|].
      pose proof (inv_wf _ _ HI r1 c1 p1 H1) as Hnn.
      destruct (Z.eqb_spec i 0) as [Hz|Hnz]; [lia|].
      simpl in Hvalid. apply isNeighbor_spec in Hvalid as (a & Ha & Hadj).
      rewrite Hlp in Ha. by injection Ha as <-.
    + by apply (Hch r1 c1 p1 r2 c2 p2).
Qed.

Lemma chainOk_step e s s' :
  invariant s -> progressOk s -> chainOk (gridCells s) -> step e s = Some s' ->
  chainOk (gridCells s').
Proof.
  intros HI Hp Hch Hstep.
  assert (Hclear : forall w, chainOk (gridCells (clearCellsForWord w s))).
  { intros w. unfold clearCellsForWord.
    destruct (strictEq _ _); simpl; (eapply chainOk_subgrid; [apply subgrid_clear|done]). }
  destruct e; simpl in Hstep;
    try (injection Hstep as <-; first [exact Hch | by apply Hclear | idtac]).
  - unfold handleAddWord. by destruct (negb _).
  - unfold handleSaveEdit. destruct (negb _); [|done].
    destruct (findWord _ _) as [ow|]; [|done]. destruct (negb _); [|done]. apply Hclear.
  - by rewrite select_grid.
  - by eapply chainOk_click.
Qed.

(** X21. In every reachable state, two cells of the same word whose
    sequence indices are consecutive are 8-neighbours of each other, also
    after letters in the middle of a word were toggled off. *)
Theorem consecutive_letters_adjacent s r1 c1 p1 r2 c2 p2 :
  reachable s ->
  cellAt (gridCells s) r1 c1 = Some p1 -> cellAt (gridCells s) r2 c2 = Some p2 ->
  wordId p1 = wordId p2 -> sequenceIndex p2 = sequenceIndex p1 + 1 ->
  eightNeighbor (r1, c1) (r2, c2).
Proof.
  intros Hreach. revert r1 c1 p1 r2 c2 p2. fold (chainOk (gridCells s)).
  revert s Hreach. apply (reachable_ind (fun s => chainOk (gridCells s))).
  - intros r1 c1 p1 r2 c2 p2 H1. by rewrite cellAt_emptyGrid in H1.
  - intros e s0 s1 Hreach IH _ Hstep.
    eapply chainOk_step; eauto; [by apply Inv_reachable|by apply progressOk_reachable].
Qed.

Lemma consecutive_letters_adjacent_witness : eightNeighbor (0, 1)%nat (1, 1)%nat.
Proof.
  apply (consecutive_letters_adjacent catExhausted 0 1
           (mkPlacement "A" "w1" "#EF4444" 1 0 1) 1 1
           (mkPlacement "T" "w1" "#EF4444" 2 1 1)).
  - exists catExhaustedEvents. vm_compute. reflexivity.
  - reflexivity.
  - reflexivity.
  - reflexivity.
  - reflexivity.
Defined.
